(** * The CSS selector builder of [src/05-objects-tasks.js]

    A shallow embedding of [cssSelectorBuilder] and of the constructors it
    uses ([MyElement], [MyId], [MyClass], [MyAttr], [MyPseudoClass],
    [MyPseudoElement], [CombineSelector]).

    The JavaScript objects built by the facade carry two properties:
    [str], a string (a value, never mutated in place), and [arr], a
    reference to an array of kind names.  The constructors receive
    [this.arr] of the object the method was called on and keep that very
    reference, so the array is shared along a chain; [push] mutates it in
    place.  The embedding therefore keeps the arrays in a store and lets
    an object hold a location.  No method ever assigns a property of an
    object that already exists, so an object itself is a plain record.

    Three functions of [src/07-conditions-n-loops-tasks.js] that work on
    strings only follow: [isBracketsBalanced], [getCommonDirectoryPath]
    and [findFirstSingleChar].  The other functions of the two files
    compute with JavaScript numbers or call [JSON] and are left out. *)

From stdpp Require Import base option list strings.
From Stdlib Require Import Sorted Ascii.

Local Open Scope string_scope.
Local Open Scope nat_scope.
Local Open Scope list_scope.
Local Open Scope stdpp_scope.

(** ** Data *)

(** The six string literals pushed onto [arr]. *)
Inductive Kind : Set :=
  | Element | Id | Class | Attribute | PseudoClass | PseudoElement.

#[global] Instance Kind_eq_dec : EqDecision Kind.
Proof. solve_decision. Defined.

(** The literal each constructor pushes. *)
Definition kind_name (k : Kind) : string :=
  match k with
  | Element => "element"
  | Id => "id"
  | Class => "class"
  | Attribute => "attribute"
  | PseudoClass => "pseudo-class"
  | PseudoElement => "pseudo-element"
  end.

(** The [order] table of [inOrderCheck]. *)
Definition order (item : Kind) : nat :=
  match item with
  | Element => 0
  | Id => 1
  | Class => 2
  | Attribute => 3
  | PseudoClass => 4
  | PseudoElement => 5
  end.

(** Array references. *)
Abbreviation loc := nat (only parsing).

(** The arrays allocated so far, by location. *)
Abbreviation store := (list (list Kind)) (only parsing).

(** An object with the prototype [cssSelectorBuilder]: both properties may
    be [undefined] (the facade itself has neither, a [CombineSelector] has
    no [arr]). *)
Record fragment : Set := Fragment {
  arr : option loc;
  str : option string
}.

(** ** Computations: a store threaded through, and [throw] *)

Inductive completion (A : Type) : Type :=
  | Normal (a : A)
  | Throw (message : string).
Arguments Normal {A} a.
Arguments Throw {A} message.

Definition js (A : Type) : Type := store → completion A * store.

Definition ret {A} (a : A) : js A := λ h, (Normal a, h).

Definition throw {A} (message : string) : js A := λ h, (Throw message, h).

Definition bind {A B} (m : js A) (k : A → js B) : js B :=
  λ h, match m h with
       | (Normal a, h') => k a h'
       | (Throw e, h') => (Throw e, h')
       end.

Notation "'let*' x ':=' m 'in' k" := (bind m (λ x, k))
  (at level 10, x name, m at level 100, k at level 200).

(** [[]]: a new array. *)
Definition new_array : js loc := λ h, (Normal (length h), h ++ [[]]).

(** The elements of the array at [a]. *)
Definition items_of (a : loc) : js (list Kind) :=
  λ h, (Normal (default [] (h !! a)), h).

(** [a.push(item)]. *)
Definition push (a : loc) (item : Kind) : js unit :=
  λ h, (Normal tt, alter (λ items, items ++ [item]) a h).

(** [arr || []]: an array is truthy, [undefined] is not. *)
Definition or_new_array (arr : option loc) : js loc :=
  match arr with
  | Some a => ret a
  | None => new_array
  end.

(** ** The two error messages *)

Definition msg_more_than_once : string :=
  "Element, id and pseudo-element should not occur more then one time inside the selector".

Definition msg_order : string :=
  "Selector parts should be arranged in the following order: element, id, class, attribute, pseudo-class, pseudo-element".

(** ** Constructors *)

(** [arr.find((item) => item === name)], then its truthiness: the item
    found is a non-empty string. *)
Definition found (name : Kind) (items : list Kind) : bool :=
  match List.find (λ item, bool_decide (item = name)) items with
  | Some _ => true
  | None => false
  end.

Definition MyElement (value str : string) (arr : option loc) : js fragment :=
  let* this_arr := or_new_array arr in
  let* items := items_of this_arr in
  if found Element items then throw msg_more_than_once
  else
    let* _ := push this_arr Element in
    ret {| arr := Some this_arr; str := Some (str +:+ value) |}.

Definition MyId (value str : string) (arr : option loc) : js fragment :=
  let* this_arr := or_new_array arr in
  let* items := items_of this_arr in
  if found Id items then throw msg_more_than_once
  else
    let* _ := push this_arr Id in
    ret {| arr := Some this_arr; str := Some (str +:+ "#" +:+ value) |}.

Definition MyClass (value str : string) (arr : option loc) : js fragment :=
  let* this_arr := or_new_array arr in
  let* _ := push this_arr Class in
  ret {| arr := Some this_arr; str := Some (str +:+ "." +:+ value) |}.

Definition MyAttr (value str : string) (arr : option loc) : js fragment :=
  let* this_arr := or_new_array arr in
  let* _ := push this_arr Attribute in
  ret {| arr := Some this_arr; str := Some (str +:+ "[" +:+ value +:+ "]") |}.

Definition MyPseudoClass (value str : string) (arr : option loc) : js fragment :=
  let* this_arr := or_new_array arr in
  let* _ := push this_arr PseudoClass in
  ret {| arr := Some this_arr; str := Some (str +:+ ":" +:+ value) |}.

Definition MyPseudoElement (value str : string) (arr : option loc) : js fragment :=
  let* this_arr := or_new_array arr in
  let* items := items_of this_arr in
  if found PseudoElement items then throw msg_more_than_once
  else
    let* _ := push this_arr PseudoElement in
    ret {| arr := Some this_arr; str := Some (str +:+ "::" +:+ value) |}.

(** ** The facade *)

(** [new Set(items)] adds the items one by one; a [Set] keeps the order of
    first insertion, and [Array.from] lists it in that order. *)
Definition Set_add (s : list Kind) (item : Kind) : list Kind :=
  if bool_decide (item ∈ s) then s else s ++ [item].

Definition Set_from (items : list Kind) : list Kind :=
  foldl Set_add [] items.

(** The [forEach] of [inOrderCheck]; [prevOrder] is the variable the
    callback reads and assigns. *)
Fixpoint forEach_order (prevOrder : nat) (arr : list Kind) : js unit :=
  match arr with
  | [] => ret tt
  | item :: rest =>
      if order item <? prevOrder then throw msg_order
      else forEach_order (order item) rest
  end.

Module cssSelectorBuilder.

(** [this.str || '']: the empty string is falsy as well. *)
Definition stringify (this : fragment) : js string :=
  match str this with
  | Some s => if bool_decide (s = "") then ret "" else ret s
  | None => ret ""
  end.

Definition inOrderCheck (obj : fragment) : js unit :=
  match arr obj with
  | Some a =>
      let* items := items_of a in
      forEach_order 0 (Set_from items)
  | None => ret tt
  end.

Definition element (value : string) (this : fragment) : js fragment :=
  let* s := stringify this in
  let* obj := MyElement value s (arr this) in
  let* _ := inOrderCheck obj in
  ret obj.

Definition id (value : string) (this : fragment) : js fragment :=
  let* s := stringify this in
  let* obj := MyId value s (arr this) in
  let* _ := inOrderCheck obj in
  ret obj.

Definition class (value : string) (this : fragment) : js fragment :=
  let* s := stringify this in
  let* obj := MyClass value s (arr this) in
  let* _ := inOrderCheck obj in
  ret obj.

Definition attr (value : string) (this : fragment) : js fragment :=
  let* s := stringify this in
  let* obj := MyAttr value s (arr this) in
  let* _ := inOrderCheck obj in
  ret obj.

Definition pseudoClass (value : string) (this : fragment) : js fragment :=
  let* s := stringify this in
  let* obj := MyPseudoClass value s (arr this) in
  let* _ := inOrderCheck obj in
  ret obj.

Definition pseudoElement (value : string) (this : fragment) : js fragment :=
  let* s := stringify this in
  let* obj := MyPseudoElement value s (arr this) in
  let* _ := inOrderCheck obj in
  ret obj.

(** The constructor [CombineSelector] stands before the facade in the
    source; it calls the [stringify] method of its two arguments, so here
    it comes after that method.  It assigns [str] only: the object has
    no [arr]. *)
Definition CombineSelector (selector1 : fragment) (combinator : string)
    (selector2 : fragment) : js fragment :=
  let* s1 := stringify selector1 in
  let* s2 := stringify selector2 in
  ret {| arr := None; str := Some (s1 +:+ " " +:+ combinator +:+ " " +:+ s2) |}.

Definition combine (selector1 : fragment) (combinator : string)
    (selector2 : fragment) : js fragment :=
  let* obj := CombineSelector selector1 combinator selector2 in
  ret obj.

End cssSelectorBuilder.

(** The facade object itself, [const builder = cssSelectorBuilder]: it has
    the methods and neither [arr] nor [str]. *)
Definition builder : fragment := {| arr := None; str := None |}.

(** ** What a client can observe of an object *)

(** The accumulated text. *)
Definition text (f : fragment) : string := default "" (str f).

(** The kinds recorded for [f]: the present content of its array, none for
    an object without [arr]. *)
Definition usedKinds (h : store) (f : fragment) : list Kind :=
  match arr f with
  | Some a => default [] (h !! a)
  | None => []
  end.

(** A reference held by an object points to an allocated array. *)
Definition valid (h : store) (f : fragment) : Prop :=
  ∀ a, arr f = Some a → a < length h.

(** The six entry points, by the kind they append. *)
Definition call (k : Kind) (value : string) (this : fragment) : js fragment :=
  match k with
  | Element => cssSelectorBuilder.element value this
  | Id => cssSelectorBuilder.id value this
  | Class => cssSelectorBuilder.class value this
  | Attribute => cssSelectorBuilder.attr value this
  | PseudoClass => cssSelectorBuilder.pseudoClass value this
  | PseudoElement => cssSelectorBuilder.pseudoElement value this
  end.

(** A chain [builder.m1(v1).m2(v2)...]: each method is called on the object
    the previous one returned. *)
Fixpoint chain (calls : list (Kind * string)) (this : fragment) : js fragment :=
  match calls with
  | [] => ret this
  | (k, value) :: rest =>
      let* next := call k value this in
      chain rest next
  end.

(** ** The vocabulary of the specification *)

(** The text an entry point adds for [value] (the table of formatting
    rules). *)
Definition piece (k : Kind) (value : string) : string :=
  match k with
  | Element => value
  | Id => "#" +:+ value
  | Class => "." +:+ value
  | Attribute => "[" +:+ value +:+ "]"
  | PseudoClass => ":" +:+ value
  | PseudoElement => "::" +:+ value
  end.

(** The kinds that may occur once only. *)
Definition singleton (k : Kind) : bool :=
  match k with
  | Element | Id | PseudoElement => true
  | Class | Attribute | PseudoClass => false
  end.

Definition occurrences (k : Kind) (l : list Kind) : nat :=
  length (filter (λ x, x = k) l).

(** Invariant A: [Element], [Id] and [PseudoElement] occur at most once. *)
Definition InvariantA (l : list Kind) : Prop :=
  occurrences Element l ≤ 1 ∧ occurrences Id l ≤ 1 ∧
  occurrences PseudoElement l ≤ 1.

(** Deduplication that keeps the first occurrence of each kind. *)
Fixpoint dedup_after (seen : list Kind) (l : list Kind) : list Kind :=
  match l with
  | [] => []
  | x :: rest =>
      if bool_decide (x ∈ seen) then dedup_after seen rest
      else x :: dedup_after (x :: seen) rest
  end.

Definition dedup_first (l : list Kind) : list Kind := dedup_after [] l.

(** Invariant B: the deduplicated sequence has non-decreasing order
    indices. *)
Definition InvariantB (l : list Kind) : Prop :=
  Sorted le (order <$> dedup_first l).

(** [s] occurs in [t] as a substring. *)
Fixpoint includes (s t : string) : bool :=
  String.prefix s t ||
  match t with
  | EmptyString => false
  | String _ t' => includes s t'
  end.

(** ** Auxiliary definitions for the proofs *)

(** The order check as a test. *)
Fixpoint in_order (prevOrder : nat) (arr : list Kind) : bool :=
  match arr with
  | [] => true
  | item :: rest => negb (order item <? prevOrder) && in_order (order item) rest
  end.

(** The array the new object holds: the receiver's, or a new one. *)
Definition array_of (h : store) (this : fragment) : loc :=
  match arr this with
  | Some a => a
  | None => length h
  end.

(** The store once the kind is pushed. *)
Definition pushed (k : Kind) (h : store) (this : fragment) : store :=
  alter (λ items, items ++ [k]) (array_of h this)
    (match arr this with Some _ => h | None => h ++ [[]] end).

(** The object a successful call returns. *)
Definition appended (k : Kind) (value : string) (h : store) (this : fragment)
    : fragment :=
  {| arr := Some (array_of h this);
     str := Some (text this +:+ piece k value) |}.

(** The value of [prevOrder] when the loop is through [l]. *)
Definition last_order (p : nat) (l : list Kind) : nat :=
  default p (last (order <$> l)).

(** ** Objects of the examples *)

(** What [builder.class('a')] returns in the empty store; the store is then
    [[[Class]]]. *)
Definition dot_a : fragment := {| arr := Some 0; str := Some ".a" |}.

(** What [builder.element('div').class('a')] returns in the empty store;
    the store is then [[[Element; Class]]]. *)
Definition div_dot_a : fragment := {| arr := Some 0; str := Some "div.a" |}.

(** What [builder.element('div')] returns in the empty store; the store is
    then [[[Element]]]. *)
Definition div_elt : fragment := {| arr := Some 0; str := Some "div" |}.

(** What [builder.class('a').class('b')] returns in the empty store; the
    store is then [[[Class; Class]]]. *)
Definition dot_a_dot_b : fragment := {| arr := Some 0; str := Some ".a.b" |}.

(** What [builder.pseudoElement('x')] returns in the empty store; the
    store is then [[[PseudoElement]]]. *)
Definition colons_x : fragment := {| arr := Some 0; str := Some "::x" |}.

(** What [builder.element('div').id('main')] returns in the empty store;
    the store is then [[[Element; Id]]]. *)
Definition div_main : fragment := {| arr := Some 0; str := Some "div#main" |}.

(** * Two string functions of [src/07-conditions-n-loops-tasks.js]

    A JavaScript string is taken as the list of its code units; the
    functions below only compare units with each other and with ASCII
    literals. *)

(** ** [isBracketsBalanced] *)

(** The object [bracketPairs], read at a key that may be [undefined] (what
    [pop] returns on an empty array); the result is [undefined] for every
    key that is not an opening bracket. *)
Definition bracketPairs (key : option ascii) : option ascii :=
  match key with
  | Some "["%char => Some "]"%char
  | Some "("%char => Some ")"%char
  | Some "{"%char => Some "}"%char
  | Some "<"%char => Some ">"%char
  | _ => None
  end.

(** [openBrackets.has(c)], the set of the keys of [bracketPairs]. *)
Definition openBrackets_has (c : ascii) : bool :=
  bool_decide (c ∈ ["["; "("; "{"; "<"]%char).

(** [closeBrackets.has(c)], the set of the values of [bracketPairs]. *)
Definition closeBrackets_has (c : ascii) : bool :=
  bool_decide (c ∈ ["]"; ")"; "}"; ">"]%char).

(** [stack.pop()]: the element removed, [undefined] on an empty array, and
    the array left.  The array [stack] is kept with its last element
    first. *)
Definition pop (stack : list ascii) : option ascii * list ascii :=
  match stack with
  | [] => (None, [])
  | top :: rest => (Some top, rest)
  end.

(** The [for] loop over the units of [str] from the current one on, and
    the test of [stack.length] that follows it. *)
Fixpoint scan_brackets (str : list ascii) (stack : list ascii) : bool :=
  match str with
  | [] => bool_decide (length stack = 0)
  | c :: rest =>
      let stack1 := if openBrackets_has c then c :: stack else stack in
      if closeBrackets_has c then
        let '(top, stack2) := pop stack1 in
        if bool_decide (bracketPairs top ≠ Some c) then false
        else scan_brackets rest stack2
      else scan_brackets rest stack1
  end.

Definition isBracketsBalanced (str : list ascii) : bool :=
  scan_brackets str [].

(** Balanced strings: the empty string; a balanced string after a unit
    that is no bracket; an opening bracket, a balanced string, the
    closing bracket of the same pair, a balanced string. *)
Inductive Balanced : list ascii → Prop :=
  | Balanced_nil : Balanced []
  | Balanced_other (c : ascii) (s : list ascii) :
      openBrackets_has c = false → closeBrackets_has c = false →
      Balanced s → Balanced (c :: s)
  | Balanced_pair (o c : ascii) (a b : list ascii) :
      bracketPairs (Some o) = Some c →
      Balanced a → Balanced b → Balanced (o :: a ++ c :: b).

(** [s] closes the brackets of [stack], innermost first, and is balanced
    in between and after. *)
Fixpoint Closes (stack : list ascii) (s : list ascii) : Prop :=
  match stack with
  | [] => Balanced s
  | o :: stack' =>
      ∃ a b c, s = a ++ c :: b ∧ bracketPairs (Some o) = Some c ∧
               Balanced a ∧ Closes stack' b
  end.

(** ** [getCommonDirectoryPath] *)

(** The [while] loop: [j] goes up as long as it is an index of both
    strings and the units at [j] are the same.  Each round needs
    [j < commonPath.length], so [commonPath.length] rounds are enough
    (lemma [while_agree_stops]). *)
Fixpoint while_agree (rounds j : nat) (commonPath path : list ascii) : nat :=
  match rounds with
  | 0 => j
  | S rounds' =>
      if bool_decide (j < length path) && bool_decide (j < length commonPath)
         && bool_decide (commonPath !! j = path !! j)
      then while_agree rounds' (S j) commonPath path
      else j
  end.

(** One round of the [for] loop: [commonPath = commonPath.slice(0, j)]. *)
Definition shorten (commonPath path : list ascii) : list ascii :=
  take (while_agree (length commonPath) 0 commonPath path) commonPath.

(** [s.lastIndexOf(c)]: the greatest index of [c] in [s], or -1. *)
Fixpoint lastIndexOf (s : list ascii) (c : ascii) : Z :=
  match s with
  | [] => (-1)%Z
  | x :: rest =>
      let k := lastIndexOf rest c in
      if (0 <=? k)%Z then (k + 1)%Z
      else if bool_decide (x = c) then 0%Z else (-1)%Z
  end.

(** On an empty array [pathes[0]] is [undefined] and the [slice] of the
    last line throws a TypeError: [None]. *)
Definition getCommonDirectoryPath (pathes : list (list ascii))
    : option (list ascii) :=
  match pathes with
  | [] => None
  | first :: others =>
      let commonPath := foldl shorten first others in
      Some (take (Z.to_nat (lastIndexOf commonPath "/" + 1)) commonPath)
  end.

(** ** [findFirstSingleChar] *)

(** A [Map] from units to counts, as the list of its entries in the order
    of insertion. *)
Definition Map_get (key : ascii) (m : list (ascii * nat)) : option nat :=
  snd <$> List.find (λ e, bool_decide (fst e = key)) m.

(** [m.set(key, value)]: an entry that exists keeps its place. *)
Fixpoint Map_set (key : ascii) (value : nat) (m : list (ascii * nat))
    : list (ascii * nat) :=
  match m with
  | [] => [(key, value)]
  | (k, v) :: rest =>
      if bool_decide (k = key) then (k, value) :: rest
      else (k, v) :: Map_set key value rest
  end.

(** The body of the first loop, [get(unit) || 0] then [set]. *)
Definition count_unit (countMap : list (ascii * nat)) (unit : ascii)
    : list (ascii * nat) :=
  let count := default 0 (Map_get unit countMap) in
  Map_set unit (count + 1) countMap.

(** Both loops stop one short of the length: the first runs over the
    units of [str] but the last, the second over the entries of
    [countArr] but the last.  [null] is [None]. *)
Definition findFirstSingleChar (str : list ascii) : option ascii :=
  let countMap := foldl count_unit [] (take (length str - 1) str) in
  let countArr := countMap in
  fst <$> List.find (λ e, bool_decide (snd e = 1))
            (take (length countArr - 1) countArr).

(** How often [c] occurs in [s]. *)
Definition unit_count (c : ascii) (s : list ascii) : nat :=
  length (filter (λ x, x = c) s).

(** The code units of a string literal. *)
Definition units (s : string) : list ascii := String.list_ascii_of_string s.

(** * Properties *)

(** ** [stringify] and the order check are observations: they leave the
    store alone *)

Lemma stringify_text (this : fragment) (h : store) :
  cssSelectorBuilder.stringify this h = (Normal (text this), h).
Proof.
  unfold cssSelectorBuilder.stringify, text.
  destruct (str this) as [s|]; simpl; [|done].
  case_bool_decide; by subst.
Qed.

Lemma forEach_order_test (prevOrder : nat) (l : list Kind) (h : store) :
  forEach_order prevOrder l h =
    (if in_order prevOrder l then Normal tt else Throw msg_order, h).
Proof.
  revert prevOrder. induction l as [|item rest IH]; intros p; simpl; [done|].
  destruct (order item <? p); simpl; [done|]. apply IH.
Qed.

Lemma found_elem_of (k : Kind) (l : list Kind) :
  found k l = bool_decide (k ∈ l).
Proof.
  unfold found. induction l as [|x l IH]; cbn [List.find].
  - symmetry. apply bool_decide_eq_false_2, not_elem_of_nil.
  - destruct (decide (x = k)) as [->|Hx].
    + rewrite (bool_decide_eq_true_2 (k = k)) by done.
      symmetry. apply bool_decide_eq_true_2. left.
    + rewrite (bool_decide_eq_false_2 (x = k)) by done.
      rewrite IH. apply bool_decide_ext. rewrite elem_of_cons.
      intuition congruence.
Qed.

Lemma not_elem_of_nil_bool (k : Kind) : bool_decide (k ∈ @nil Kind) = false.
Proof. apply bool_decide_eq_false_2, not_elem_of_nil. Qed.

(** ** One description for the six entry points *)

Lemma call_unfold (k : Kind) (value : string) (this : fragment) (h : store) :
  call k value this h =
    if singleton k && bool_decide (k ∈ usedKinds h this)
    then (Throw msg_more_than_once, h)
    else if in_order 0
              (Set_from (usedKinds (pushed k h this) (appended k value h this)))
         then (Normal (appended k value h this), pushed k h this)
         else (Throw msg_order, pushed k h this).
Proof.
  destruct this as [[a|] s]; destruct k;
    unfold call, cssSelectorBuilder.element, cssSelectorBuilder.id,
      cssSelectorBuilder.class, cssSelectorBuilder.attr,
      cssSelectorBuilder.pseudoClass, cssSelectorBuilder.pseudoElement,
      MyElement, MyId, MyClass, MyAttr, MyPseudoClass, MyPseudoElement,
      cssSelectorBuilder.inOrderCheck, bind;
    rewrite stringify_text;
    unfold usedKinds, pushed, appended, array_of, items_of, or_new_array,
      new_array, ret, push, singleton, throw;
    cbn [arr str andb text default piece];
    rewrite ?found_elem_of, ?list_lookup_middle by done; cbn [default];
    rewrite ?not_elem_of_nil_bool;
    repeat match goal with
      | |- context [bool_decide (?k ∈ ?l)] => destruct (bool_decide (k ∈ l))
      end;
    cbn [arr str andb text default piece];
    rewrite ?forEach_order_test;
    repeat match goal with
      | |- context [in_order 0 ?l] => destruct (in_order 0 l)
      end; reflexivity.
Qed.

(** ** What a call does to the arrays *)

(** The returned object sees the receiver's kinds followed by the new one. *)
Lemma usedKinds_appended (k : Kind) (value : string) (h : store)
    (this : fragment) :
  valid h this →
  usedKinds (pushed k h this) (appended k value h this) =
    usedKinds h this ++ [k].
Proof.
  intros Hv. unfold usedKinds, pushed, appended, array_of. cbn [arr].
  destruct (arr this) as [a|] eqn:Ha.
  - destruct (lookup_lt_is_Some_2 h a (Hv a Ha)) as [items Hitems].
    by rewrite list_lookup_alter_eq, Hitems.
  - by rewrite list_lookup_alter_eq, list_lookup_middle.
Qed.

(** Without the hypothesis on the reference the array is missing and stays
    so. *)
Lemma usedKinds_appended_cases (k : Kind) (value : string) (h : store)
    (this : fragment) :
  usedKinds (pushed k h this) (appended k value h this) =
    usedKinds h this ++ [k]
  ∨ (usedKinds h this = [] ∧
     usedKinds (pushed k h this) (appended k value h this) = []).
Proof.
  destruct (arr this) as [a|] eqn:Ha.
  - destruct (decide (a < length h)) as [Hlt|Hge].
    + left. apply usedKinds_appended. intros a' Ha'. congruence.
    + right. unfold usedKinds, pushed, appended, array_of. cbn [arr].
      rewrite Ha, list_lookup_alter_eq, (lookup_ge_None_2 h a) by lia. done.
  - left. apply usedKinds_appended. intros a' Ha'. congruence.
Qed.

(** A receiver with an array sees the push as well: it is the same array. *)
Lemma usedKinds_receiver_shared (k : Kind) (h : store) (this : fragment)
    (a : loc) :
  arr this = Some a → a < length h →
  usedKinds (pushed k h this) this = usedKinds h this ++ [k].
Proof.
  intros Ha Hlt. unfold usedKinds, pushed, array_of. rewrite Ha.
  destruct (lookup_lt_is_Some_2 h a Hlt) as [items Hitems].
  by rewrite list_lookup_alter_eq, Hitems.
Qed.

(** A receiver without an array has no kinds, whatever the store. *)
Lemma usedKinds_no_array (h : store) (this : fragment) :
  arr this = None → usedKinds h this = [].
Proof. intros Ha. unfold usedKinds. by rewrite Ha. Qed.

(** Any other object with a valid reference keeps its kinds when the
    receiver has no array: the new array is a new location. *)
Lemma usedKinds_frame_new_array (k : Kind) (h : store) (this other : fragment) :
  arr this = None → valid h other →
  usedKinds (pushed k h this) other = usedKinds h other.
Proof.
  intros Ha Hv. unfold usedKinds, pushed, array_of. rewrite Ha.
  destruct (arr other) as [b|] eqn:Hb; [|done].
  specialize (Hv b Hb).
  rewrite list_lookup_alter_ne by lia. by rewrite lookup_app_l.
Qed.

Lemma valid_pushed (k : Kind) (value : string) (h : store) (this : fragment) :
  valid h this → valid (pushed k h this) (appended k value h this).
Proof.
  intros Hv a. unfold appended, pushed, array_of. cbn [arr].
  intros [= <-]. rewrite length_alter.
  destruct (arr this) as [b|] eqn:Hb.
  - by apply Hv.
  - rewrite length_app. simpl. lia.
Qed.

(** ** [new Set] and deduplication *)

Lemma Set_from_snoc (l : list Kind) (k : Kind) :
  Set_from (l ++ [k]) = Set_add (Set_from l) k.
Proof. unfold Set_from. by rewrite foldl_app. Qed.

Lemma elem_of_Set_add (s : list Kind) (k x : Kind) :
  x ∈ Set_add s k ↔ x ∈ s ∨ x = k.
Proof.
  unfold Set_add. case_bool_decide as Hk.
  - split; [auto|]. intros [?| ->]; done.
  - rewrite elem_of_app, list_elem_of_singleton. done.
Qed.

Lemma elem_of_Set_from (l : list Kind) (x : Kind) :
  x ∈ Set_from l ↔ x ∈ l.
Proof.
  induction l as [|k l IH] using rev_ind; [done|].
  rewrite Set_from_snoc, elem_of_Set_add, IH, elem_of_app,
    list_elem_of_singleton. done.
Qed.

Lemma dedup_after_ext (s1 s2 l : list Kind) :
  (∀ x, x ∈ s1 ↔ x ∈ s2) → dedup_after s1 l = dedup_after s2 l.
Proof.
  revert s1 s2. induction l as [|x l IH]; intros s1 s2 Hs; simpl; [done|].
  rewrite (bool_decide_ext (x ∈ s1) (x ∈ s2)) by apply Hs.
  case_bool_decide; [by apply IH|].
  f_equal. apply IH. intros y. rewrite !elem_of_cons, Hs. done.
Qed.

Lemma foldl_Set_add (s l : list Kind) :
  foldl Set_add s l = s ++ dedup_after s l.
Proof.
  revert s. induction l as [|x l IH]; intros s; simpl.
  - by rewrite app_nil_r.
  - rewrite IH. unfold Set_add. case_bool_decide as Hx; [done|].
    rewrite <- app_assoc. simpl. do 2 f_equal.
    apply dedup_after_ext. intros y.
    rewrite elem_of_app, list_elem_of_singleton, elem_of_cons. tauto.
Qed.

(** The code's [Array.from(new Set(arr))] is the deduplication of the
    specification. *)
Lemma Set_from_dedup_first (l : list Kind) : Set_from l = dedup_first l.
Proof. unfold Set_from, dedup_first. by rewrite foldl_Set_add. Qed.

(** ** The order check *)

Lemma in_order_Sorted (p : nat) (l : list Kind) :
  in_order p l = true ↔ Sorted le (p :: (order <$> l)).
Proof.
  revert p. induction l as [|x l IH]; intros p; simpl.
  - split; [intros _; repeat constructor | done].
  - rewrite andb_true_iff, negb_true_iff, Nat.ltb_ge, IH. split.
    + intros [Hle Hs]. constructor; [done|]. by constructor.
    + intros Hs. apply Sorted_inv in Hs as [Hs Hh].
      apply HdRel_inv in Hh. done.
Qed.

(** From [prevOrder = 0] the check accepts exactly the non-decreasing
    sequences. *)
Lemma in_order_0 (l : list Kind) :
  in_order 0 l = true ↔ Sorted le (order <$> l).
Proof.
  rewrite in_order_Sorted. split.
  - intros Hs. by apply Sorted_inv in Hs as [? _].
  - intros Hs. constructor; [done|].
    destruct l; simpl; constructor. lia.
Qed.

Lemma last_order_cons (p : nat) (x : Kind) (l : list Kind) :
  last_order p (x :: l) = last_order (order x) l.
Proof.
  unfold last_order. rewrite fmap_cons, last_cons.
  by destruct (last (order <$> l)).
Qed.

Lemma in_order_snoc (p : nat) (l : list Kind) (k : Kind) :
  in_order p (l ++ [k]) = in_order p l && (last_order p l <=? order k).
Proof.
  revert p. induction l as [|x l IH]; intros p.
  - simpl. unfold last_order. simpl.
    rewrite andb_true_r. symmetry. apply Nat.leb_antisym.
  - cbn [app in_order]. rewrite IH, last_order_cons, andb_assoc. done.
Qed.

Lemma in_order_bounds (p : nat) (l : list Kind) :
  in_order p l = true →
  p ≤ last_order p l ∧ ∀ x, x ∈ l → order x ≤ last_order p l.
Proof.
  revert p. induction l as [|x l IH]; intros p; simpl.
  - intros _. split; [done|]. intros x Hx. by apply not_elem_of_nil in Hx.
  - rewrite andb_true_iff, negb_true_iff, Nat.ltb_ge. intros [Hle Hl].
    rewrite last_order_cons. destruct (IH _ Hl) as [Hp Hall].
    split; [lia|]. intros y [->|Hy]%elem_of_cons; [done|by apply Hall].
Qed.

Lemma last_order_elem (p : nat) (l : list Kind) :
  last_order p l = p ∨ ∃ x, x ∈ l ∧ last_order p l = order x.
Proof.
  revert p. induction l as [|x l IH]; intros p; [by left|].
  right. rewrite last_order_cons. destruct (IH (order x)) as [->|(y & Hy & ->)].
  - exists x. split; [left|done].
  - exists y. split; [by right|done].
Qed.

(** On an accepted sequence, one more kind is rejected exactly when some
    kind of the sequence has a greater index. *)
Lemma in_order_snoc_false (l : list Kind) (k : Kind) :
  in_order 0 l = true →
  in_order 0 (l ++ [k]) = false ↔ ∃ k', k' ∈ l ∧ order k < order k'.
Proof.
  intros Hl. rewrite in_order_snoc, Hl. cbn [andb].
  rewrite Nat.leb_gt. destruct (in_order_bounds _ _ Hl) as [_ Hall]. split.
  - intros Hlt. destruct (last_order_elem 0 l) as [E|(x & Hx & E)].
    + lia.
    + exists x. split; [done|lia].
  - intros (x & Hx & Hlt). specialize (Hall x Hx). lia.
Qed.

(** ** Counting occurrences *)

Lemma occurrences_snoc (x k : Kind) (l : list Kind) :
  occurrences x (l ++ [k]) =
    occurrences x l + (if bool_decide (k = x) then 1 else 0).
Proof.
  unfold occurrences. rewrite filter_app, length_app. f_equal.
  case_bool_decide as Hk.
  - by rewrite filter_cons_True.
  - by rewrite filter_cons_False.
Qed.

Lemma occurrences_absent (k : Kind) (l : list Kind) :
  k ∉ l → occurrences k l = 0.
Proof.
  unfold occurrences. induction l as [|x l IH]; [done|].
  rewrite not_elem_of_cons. intros [Hne Hl].
  rewrite filter_cons_False by congruence. by apply IH.
Qed.

Lemma InvariantA_snoc (l : list Kind) (k : Kind) :
  InvariantA l → (singleton k = true → k ∉ l) → InvariantA (l ++ [k]).
Proof.
  unfold InvariantA. intros (He & Hi & Hp) Hk.
  assert (Hz : singleton k = true → occurrences k l = 0)
    by (intros; apply occurrences_absent; auto).
  rewrite !occurrences_snoc.
  destruct k; cbn [singleton] in Hz; repeat case_bool_decide;
    try congruence; try specialize (Hz eq_refl); lia.
Qed.

Lemma InvariantA_nil : InvariantA [].
Proof. unfold InvariantA, occurrences. simpl. lia. Qed.

Lemma InvariantB_test (l : list Kind) :
  InvariantB l ↔ in_order 0 (Set_from l) = true.
Proof. unfold InvariantB. by rewrite in_order_0, Set_from_dedup_first. Qed.

(** ** Text *)

Lemma string_app_assoc (s1 s2 s3 : string) :
  (s1 +:+ s2) +:+ s3 = s1 +:+ (s2 +:+ s3).
Proof.
  induction s1 as [|c s1 IH]; [done|].
  change (String c ((s1 +:+ s2) +:+ s3) = String c (s1 +:+ s2 +:+ s3)).
  by rewrite IH.
Qed.

Lemma string_app_nil_r (s : string) : s +:+ "" = s.
Proof.
  induction s as [|c s IH]; [done|].
  change (String c (s +:+ "") = String c s). by rewrite IH.
Qed.

(** A successful call returns the object [appended] and leaves the store
    [pushed]. *)
Lemma call_Normal (k : Kind) (value : string) (this f : fragment)
    (h h' : store) :
  call k value this h = (Normal f, h') →
  f = appended k value h this ∧ h' = pushed k h this ∧
  (singleton k = true → k ∉ usedKinds h this) ∧
  in_order 0 (Set_from (usedKinds h' f)) = true.
Proof.
  rewrite call_unfold. destruct (singleton k) eqn:Hs; cbn [andb].
  - case_bool_decide as Hk; [done|].
    destruct (in_order 0 _) eqn:Ho; [|done].
    intros [= <- <-]. done.
  - destruct (in_order 0 _) eqn:Ho; [|done].
    intros [= <- <-]. done.
Qed.

(** The text of a fragment built by a chain is what the calls added, in
    order, after the text of the object the chain started from. *)
Lemma chain_text (calls : list (Kind * string)) (this f : fragment)
    (h h' : store) :
  chain calls this h = (Normal f, h') →
  text f =
    text this +:+ foldr (λ c s, piece (fst c) (snd c) +:+ s) "" calls.
Proof.
  revert this h. induction calls as [|[k value] calls IH]; intros this h.
  - simpl. intros [= -> _]. by rewrite string_app_nil_r.
  - cbn [chain foldr fst snd]. unfold bind.
    destruct (call k value this h) as [[next|e] h1] eqn:Hc; [|done].
    intros Hrest. rewrite (IH _ _ Hrest).
    apply call_Normal in Hc as (-> & _). unfold appended, text at 1.
    cbn [str default]. apply string_app_assoc.
Qed.

(** C9: [stringify] returns the accumulated text of the object it is called
    on, in any store and without changing the store, so it never throws
    and every call returns the same string; on the facade itself, which
    has no text, it returns the empty string. *)
Theorem stringify_total_and_stable (f : fragment) (h h' : store) :
  cssSelectorBuilder.stringify f h = (Normal (text f), h)
  ∧ cssSelectorBuilder.stringify f h' = (Normal (text f), h')
  ∧ (let* s1 := cssSelectorBuilder.stringify f in
     let* s2 := cssSelectorBuilder.stringify f in
     ret (s1, s2)) h = (Normal (text f, text f), h)
  ∧ cssSelectorBuilder.stringify builder h = (Normal "", h).
Proof.
  repeat split; try apply stringify_text.
  unfold bind. by rewrite !stringify_text.
Qed.

(** C6: [combine] returns normally for any two objects and any combinator,
    whatever kinds the two objects carry; the object returned stringifies
    to the two texts with the combinator between single spaces, and it
    has no kinds in any store. *)
Theorem combine_never_fails (left right : fragment) (combinator : string)
    (h : store) :
  ∃ sl sr f,
    cssSelectorBuilder.stringify left h = (Normal sl, h)
    ∧ cssSelectorBuilder.stringify right h = (Normal sr, h)
    ∧ cssSelectorBuilder.combine left combinator right h = (Normal f, h)
    ∧ cssSelectorBuilder.stringify f h =
        (Normal (sl +:+ " " +:+ combinator +:+ " " +:+ sr), h)
    ∧ ∀ h', usedKinds h' f = [].
Proof.
  exists (text left), (text right),
    {| arr := None;
       str := Some (text left +:+ " " +:+ combinator +:+ " " +:+ text right) |}.
  rewrite !stringify_text.
  unfold cssSelectorBuilder.combine, cssSelectorBuilder.CombineSelector, bind.
  rewrite !stringify_text. done.
Qed.

(** When neither check rejects the kind, the call returns. *)
Lemma call_accepts (k : Kind) (value : string) (this : fragment) (h : store) :
  valid h this →
  (singleton k = true → k ∉ usedKinds h this) →
  in_order 0 (Set_from (usedKinds h this ++ [k])) = true →
  call k value this h = (Normal (appended k value h this), pushed k h this).
Proof.
  intros Hv Hk Ho. rewrite call_unfold, usedKinds_appended, Ho by done.
  destruct (singleton k); cbn [andb]; [|done].
  by rewrite bool_decide_eq_false_2 by auto.
Qed.

Lemma valid_builder (h : store) : valid h builder.
Proof. intros a. unfold builder. cbn [arr]. done. Qed.

Lemma pushed_new_array (k : Kind) (h : store) (this : fragment) :
  arr this = None → pushed k h this = h ++ [[k]].
Proof.
  intros Ha. unfold pushed, array_of. rewrite Ha.
  rewrite <- (Nat.add_0_r (length h)). by rewrite alter_app_r.
Qed.


Lemma text_of_Normal (k : Kind) (value : string) (this f : fragment)
    (h h' : store) :
  call k value this h = (Normal f, h') →
  text f = text this +:+ piece k value.
Proof. intros (-> & _)%call_Normal. done. Qed.


(** ** The two checks *)

Lemma messages_differ : msg_order ≠ msg_more_than_once.
Proof. discriminate. Qed.

(** A kind that may occur once only is refused, with nothing done, when it
    is among the receiver's kinds. *)
Lemma call_duplicate (k : Kind) (value : string) (this : fragment) (h : store) :
  singleton k = true → k ∈ usedKinds h this →
  call k value this h = (Throw msg_more_than_once, h).
Proof.
  intros Hs Hk. rewrite call_unfold, Hs. cbn [andb].
  by rewrite bool_decide_eq_true_2.
Qed.

Lemma call_duplicate_iff (k : Kind) (value : string) (this : fragment)
    (h : store) :
  singleton k = true →
  fst (call k value this h) = Throw msg_more_than_once ↔ k ∈ usedKinds h this.
Proof.
  intros Hs. split.
  - rewrite call_unfold, Hs. cbn [andb]. case_bool_decide as Hk; [done|].
    destruct (in_order 0 _); cbn [fst]; [done|].
    intros E. destruct messages_differ. congruence.
  - intros Hk. by rewrite call_duplicate.
Qed.

(** What a returning call establishes: Invariant B is what [inOrderCheck]
    has just tested on the new object, Invariant A follows from the
    receiver's and from the test in the constructor. *)
Lemma call_keeps_invariants (k : Kind) (value : string)
    (f f' : fragment) (h h' : store) :
  InvariantA (usedKinds h f) →
  call k value f h = (Normal f', h') →
  InvariantA (usedKinds h' f') ∧ InvariantB (usedKinds h' f').
Proof.
  intros HA (-> & -> & Hk & Ho)%call_Normal. split.
  - destruct (usedKinds_appended_cases k value h f) as [-> | [_ ->]].
    + by apply InvariantA_snoc.
    + apply InvariantA_nil.
  - by apply InvariantB_test.
Qed.

(** Every object a chain of calls returns holds a valid reference and
    satisfies both invariants, when the object the chain starts from
    does. *)
Lemma chain_invariants (calls : list (Kind * string)) (this f : fragment)
    (h h' : store) :
  valid h this → InvariantA (usedKinds h this) →
  InvariantB (usedKinds h this) →
  chain calls this h = (Normal f, h') →
  valid h' f ∧ InvariantA (usedKinds h' f) ∧ InvariantB (usedKinds h' f).
Proof.
  revert this h. induction calls as [|[k value] calls IH]; intros this h.
  - simpl. by intros Hv HA HB [= -> ->].
  - intros Hv HA HB. cbn [chain]. unfold bind.
    destruct (call k value this h) as [[next|e] h1] eqn:Hc; [|done].
    destruct (call_keeps_invariants _ _ _ _ _ _ HA Hc) as [HA1 HB1].
    apply IH; [|done..].
    apply call_Normal in Hc as (-> & -> & _). by apply valid_pushed.
Qed.

(** In particular every object built from the facade. *)
Lemma built_from_facade (calls : list (Kind * string)) (f : fragment)
    (h h' : store) :
  chain calls builder h = (Normal f, h') →
  valid h' f ∧ InvariantA (usedKinds h' f) ∧ InvariantB (usedKinds h' f).
Proof.
  apply chain_invariants.
  - apply valid_builder.
  - apply InvariantA_nil.
  - unfold InvariantB. cbn. constructor.
Qed.

(** C2: when an entry point returns, the kinds of the object returned
    satisfy Invariants A and B, provided those of the receiver did. *)
Theorem append_preserves_invariants (k : Kind) (value : string)
    (f f' : fragment) (h h' : store) :
  InvariantA (usedKinds h f) → InvariantB (usedKinds h f) →
  call k value f h = (Normal f', h') →
  InvariantA (usedKinds h' f') ∧ InvariantB (usedKinds h' f').
Proof.
  intros HA _ Hc. exact (call_keeps_invariants k value f f' h h' HA Hc).
Qed.

(** C3: [element], [id] and [pseudoElement] throw the error about a part
    occurring more than once exactly when their kind is already among the
    receiver's kinds.  The call is then that [throw] and nothing else: it
    comes before the text of a new object is put together.  The message
    is one sentence for the three kinds; it contains the name of each of
    them and says that they should not occur more than once. *)
Theorem duplicate_singleton_error (value : string) (f : fragment) (h : store) :
  (fst (cssSelectorBuilder.element value f h) = Throw msg_more_than_once
     ↔ Element ∈ usedKinds h f)
  ∧ (fst (cssSelectorBuilder.id value f h) = Throw msg_more_than_once
     ↔ Id ∈ usedKinds h f)
  ∧ (fst (cssSelectorBuilder.pseudoElement value f h) = Throw msg_more_than_once
     ↔ PseudoElement ∈ usedKinds h f)
  ∧ (∀ k, singleton k = true → k ∈ usedKinds h f →
       call k value f h = throw msg_more_than_once h)
  ∧ includes (kind_name Element) msg_more_than_once = true
  ∧ includes (kind_name Id) msg_more_than_once = true
  ∧ includes (kind_name PseudoElement) msg_more_than_once = true
  ∧ includes "should not occur more then one time" msg_more_than_once = true.
Proof.
  split; [by apply (call_duplicate_iff Element)|].
  split; [by apply (call_duplicate_iff Id)|].
  split; [by apply (call_duplicate_iff PseudoElement)|].
  split; [intros k Hs Hk; by apply call_duplicate|].
  repeat split; vm_compute; reflexivity.
Qed.

(** C10: when [element], [id] or [pseudoElement] finds its kind among the
    receiver's kinds, it throws with the store as it was: nothing has been
    pushed, so the receiver and every object that shares its array keep
    their kinds, and no text has been built. *)
Theorem duplicate_leaves_store (value : string) (f : fragment) (h : store) :
  (Element ∈ usedKinds h f →
     cssSelectorBuilder.element value f h = (Throw msg_more_than_once, h))
  ∧ (Id ∈ usedKinds h f →
     cssSelectorBuilder.id value f h = (Throw msg_more_than_once, h))
  ∧ (PseudoElement ∈ usedKinds h f →
     cssSelectorBuilder.pseudoElement value f h = (Throw msg_more_than_once, h)).
Proof.
  split; [by apply (call_duplicate Element)|].
  split; [by apply (call_duplicate Id)|by apply (call_duplicate PseudoElement)].
Qed.

(** ** Calls on one receiver: the array is shared *)

Lemma Set_from_snoc_dup (l : list Kind) (k : Kind) :
  k ∈ l → Set_from (l ++ [k]) = Set_from l.
Proof.
  intros Hk. rewrite Set_from_snoc. unfold Set_add.
  by rewrite bool_decide_eq_true_2 by by apply elem_of_Set_from.
Qed.

Lemma usedKinds_dangling (h : store) (f : fragment) (a : loc) :
  arr f = Some a → length h ≤ a → usedKinds h f = [].
Proof.
  intros Ha Hge. unfold usedKinds. by rewrite Ha, lookup_ge_None_2.
Qed.

Lemma length_pushed (k : Kind) (h : store) (this : fragment) (a : loc) :
  arr this = Some a → length (pushed k h this) = length h.
Proof. intros Ha. unfold pushed. by rewrite Ha, length_alter. Qed.

(** How a call can throw: the duplicate error with the store as it was, or
    the order error with the kind already pushed. *)
Lemma call_Throw (k : Kind) (value e : string) (this : fragment)
    (h h' : store) :
  call k value this h = (Throw e, h') →
  (e = msg_more_than_once ∧ h' = h ∧ singleton k = true ∧
   k ∈ usedKinds h this)
  ∨ (e = msg_order ∧ h' = pushed k h this).
Proof.
  rewrite call_unfold. destruct (singleton k) eqn:Hs; cbn [andb].
  - case_bool_decide as Hk.
    + intros [= <- <-]. by left.
    + destruct (in_order 0 _); [done|]. intros [= <- <-]. by right.
  - destruct (in_order 0 _); [done|]. intros [= <- <-]. by right.
Qed.

(** A kind that may repeat is accepted again by a receiver that has just
    accepted it. *)
Lemma call_again (k : Kind) (v v' : string) (f fa : fragment) (h ha : store) :
  singleton k = false →
  call k v f h = (Normal fa, ha) →
  call k v' f ha = (Normal (appended k v' ha f), pushed k ha f).
Proof.
  intros Hs (-> & -> & _ & Ho)%call_Normal.
  rewrite call_unfold, Hs. cbn [andb].
  destruct (arr f) as [a|] eqn:Ha.
  - destruct (decide (a < length h)) as [Hlt|Hge].
    + assert (valid h f) as Hv by (intros a' Ha'; congruence).
      assert (valid (pushed k h f) f) as Hv'.
      { intros a' Ha'. rewrite (length_pushed k h f a Ha). congruence. }
      rewrite usedKinds_appended in Ho by done.
      rewrite usedKinds_appended by done.
      rewrite (usedKinds_receiver_shared k h f a) by done.
      rewrite Set_from_snoc_dup, Ho; [done|].
      rewrite elem_of_app, list_elem_of_singleton. by right.
    + destruct (usedKinds_appended_cases k v' (pushed k h f) f)
        as [-> | [_ ->]]; [|done].
      rewrite (usedKinds_dangling _ f a) by (rewrite ?(length_pushed k h f a); done || lia).
      by destruct k.
  - rewrite usedKinds_appended by (intros a' Ha'; congruence).
    rewrite usedKinds_no_array by done. by destruct k.
Qed.

(** C7, as amended: on every fragment [f], [f.class('a')] either throws
    the order error, and then no fragment is derived, or returns; when it
    returns, [f.class('b')] on the same [f] returns as well, [f]
    stringifies afterwards to what it did before, and the two objects
    returned stringify to that text followed by [.a] and by [.b]. *)
Theorem class_branches_keep_text (f : fragment) (h : store) :
  (∃ h', cssSelectorBuilder.class "a" f h = (Throw msg_order, h'))
  ∨ ∃ s fa ha fb hb,
      cssSelectorBuilder.stringify f h = (Normal s, h)
      ∧ cssSelectorBuilder.class "a" f h = (Normal fa, ha)
      ∧ cssSelectorBuilder.class "b" f ha = (Normal fb, hb)
      ∧ cssSelectorBuilder.stringify f hb = (Normal s, hb)
      ∧ cssSelectorBuilder.stringify fa hb = (Normal (s +:+ ".a"), hb)
      ∧ cssSelectorBuilder.stringify fb hb = (Normal (s +:+ ".b"), hb).
Proof.
  change (cssSelectorBuilder.class "a" f h) with (call Class "a" f h).
  destruct (call Class "a" f h) as [[fa|e] ha] eqn:Ha.
  - right.
    exists (text f), fa, ha, (appended Class "b" ha f), (pushed Class ha f).
    rewrite !stringify_text.
    split; [done|]. split; [done|].
    split; [by apply (call_again Class "a" "b" f fa h ha)|].
    split; [done|].
    apply (text_of_Normal Class) in Ha as ->. done.
  - left. exists ha.
    destruct (call_Throw _ _ _ _ _ _ Ha) as [(_ & _ & Hs & _) | (-> & _)];
      [discriminate Hs|done].
Qed.

(** C1, as amended: a successful call returns an object whose text is the
    receiver's text followed by the formatted value and whose kinds are
    the receiver's former kinds followed by the new kind.  A receiver
    without an array (the facade, the result of [combine]) keeps none and
    the new object gets a new array, which leaves the kinds of every
    other object as they were.  A receiver with an array hands that very
    array to the new object, so that afterwards the receiver's kinds too
    are its former kinds followed by the new kind. *)
Theorem append_extends_shared_array (k : Kind) (value : string)
    (f f' : fragment) (h h' : store) :
  valid h f →
  call k value f h = (Normal f', h') →
  text f' = text f +:+ piece k value
  ∧ usedKinds h' f' = usedKinds h f ++ [k]
  ∧ (arr f = None →
       arr f' = Some (length h) ∧ usedKinds h' f = [] ∧
       ∀ g, valid h g → usedKinds h' g = usedKinds h g)
  ∧ (∀ a, arr f = Some a →
       arr f' = Some a ∧ usedKinds h' f = usedKinds h f ++ [k]).
Proof.
  intros Hv Hc. pose proof (text_of_Normal _ _ _ _ _ _ Hc) as Ht.
  apply call_Normal in Hc as (-> & -> & _ & _).
  split; [done|]. split; [by apply usedKinds_appended|]. split.
  - intros Ha. split; [|split].
    + unfold appended, array_of. by rewrite Ha.
    + by apply usedKinds_no_array.
    + intros g Hg. by apply usedKinds_frame_new_array.
  - intros a Ha. split.
    + unfold appended, array_of. by rewrite Ha.
    + apply (usedKinds_receiver_shared k h f a); [done|by apply Hv].
Qed.

(** ** The order error *)

(** Whenever the order error is thrown on a receiver with an array, the
    rejected kind stays in that array. *)
Lemma order_error_keeps_kind (k : Kind) (value : string) (f : fragment)
    (h h' : store) (a : loc) :
  arr f = Some a → a < length h →
  call k value f h = (Throw msg_order, h') →
  usedKinds h' f = usedKinds h f ++ [k].
Proof.
  intros Ha Hlt [(E & _) | (_ & ->)]%call_Throw.
  - by destruct messages_differ.
  - by apply (usedKinds_receiver_shared k h f a).
Qed.

Lemma call_order_error_iff (k : Kind) (value : string) (f : fragment)
    (h : store) :
  InvariantB (usedKinds h f) → k ∉ usedKinds h f →
  fst (call k value f h) = Throw msg_order ↔
  ∃ k', k' ∈ usedKinds h f ∧ order k < order k'.
Proof.
  intros HB Hk. apply InvariantB_test in HB.
  rewrite call_unfold, (bool_decide_eq_false_2 _ Hk), andb_false_r.
  destruct (usedKinds_appended_cases k value h f) as [-> | [E ->]].
  - rewrite Set_from_snoc. unfold Set_add.
    rewrite bool_decide_eq_false_2 by by rewrite elem_of_Set_from.
    transitivity (in_order 0 (Set_from (usedKinds h f) ++ [k]) = false).
    + destruct (in_order 0 (Set_from (usedKinds h f) ++ [k])); cbn [fst];
        split; done.
    + rewrite (in_order_snoc_false _ k HB).
      by setoid_rewrite elem_of_Set_from.
  - rewrite E. cbn [Set_from foldl in_order fst]. split; [done|].
    intros (k' & Hk' & _). by apply not_elem_of_nil in Hk'.
Qed.

(** C4, as amended: on a receiver that satisfies Invariants A and B and
    does not yet carry the kind, an entry point throws the order error
    exactly when a kind of the receiver has a greater index than its own;
    when the kind is one that may occur once only and the receiver
    carries it, the error thrown is the one about occurring more than
    once, whatever other kinds are present.  The order message lists
    element, id, class, attribute, pseudo-class, pseudo-element. *)
Theorem out_of_order_error (k : Kind) (value : string) (f : fragment)
    (h : store) :
  InvariantA (usedKinds h f) → InvariantB (usedKinds h f) →
  (k ∉ usedKinds h f →
     fst (call k value f h) = Throw msg_order ↔
     ∃ k', k' ∈ usedKinds h f ∧ k' ≠ k ∧ order k < order k')
  ∧ (singleton k = true → k ∈ usedKinds h f →
     fst (call k value f h) = Throw msg_more_than_once)
  ∧ includes "element, id, class, attribute, pseudo-class, pseudo-element"
      msg_order = true.
Proof.
  intros _ HB. split; [|split].
  - intros Hk. rewrite (call_order_error_iff k value f h HB Hk).
    split; intros (k' & Hk' & H); exists k'.
    + repeat split; [done| |done]. intros ->. lia.
    + by destruct H.
  - intros Hs Hk. by rewrite call_duplicate.
  - vm_compute. reflexivity.
Qed.

(** * The code at concrete inputs *)

(** C1, as stated, fails: [f = builder.class('a')] has the kinds
    [[Class]]; after the successful call [f.class('b')] the kinds of [f]
    itself are [[Class; Class]], because the object returned holds the
    array of [f]. *)
Lemma append_changes_receiver_kinds :
  cssSelectorBuilder.class "a" builder [] = (Normal dot_a, [[Class]])
  ∧ usedKinds [[Class]] dot_a = [Class]
  ∧ cssSelectorBuilder.class "b" dot_a [[Class]] =
      (Normal dot_a_dot_b, [[Class; Class]])
  ∧ arr dot_a_dot_b = arr dot_a
  ∧ usedKinds [[Class; Class]] dot_a = [Class; Class]
  ∧ usedKinds [[Class; Class]] dot_a ≠ usedKinds [[Class]] dot_a.
Proof. repeat split; try reflexivity. discriminate. Qed.

(** The same sharing seen from a second branch: after [f.id('x')] on
    [f = builder.element('div')], the call [f.id('y')] is refused. *)
Lemma second_branch_refused :
  cssSelectorBuilder.element "div" builder [] = (Normal div_elt, [[Element]])
  ∧ cssSelectorBuilder.id "x" div_elt [[Element]] =
      (Normal {| arr := Some 0; str := Some "div#x" |}, [[Element; Id]])
  ∧ cssSelectorBuilder.id "y" div_elt [[Element; Id]] =
      (Throw msg_more_than_once, [[Element; Id]]).
Proof. repeat split; reflexivity. Qed.

(** C4, as stated, fails: [f = builder.element('div').class('a')]
    satisfies both invariants and carries [Class], a kind other than
    [Element] and of greater index; yet [f.element('span')] throws the
    error about occurring more than once, not the order error. *)
Lemma duplicate_error_comes_first :
  chain [(Element, "div"); (Class, "a")] builder [] =
    (Normal div_dot_a, [[Element; Class]])
  ∧ InvariantA (usedKinds [[Element; Class]] div_dot_a)
  ∧ InvariantB (usedKinds [[Element; Class]] div_dot_a)
  ∧ Class ∈ usedKinds [[Element; Class]] div_dot_a
  ∧ Class ≠ Element
  ∧ order Element < order Class
  ∧ cssSelectorBuilder.element "span" div_dot_a [[Element; Class]] =
      (Throw msg_more_than_once, [[Element; Class]])
  ∧ fst (cssSelectorBuilder.element "span" div_dot_a [[Element; Class]]) ≠
      Throw msg_order.
Proof.
  split; [reflexivity|].
  split; [vm_compute; lia|].
  split; [unfold InvariantB; cbn; repeat constructor|].
  split; [cbn; apply elem_of_cons; right; left|].
  split; [discriminate|].
  split; [cbn; lia|].
  split; [reflexivity|].
  vm_compute. discriminate.
Qed.

(** C7, as stated, fails: on [f = builder.pseudoElement('x')] the call
    [f.class('a')] throws the order error, so there is no derived
    fragment that could stringify to [::x.a]. *)
Lemma class_after_pseudo_element_throws :
  cssSelectorBuilder.pseudoElement "x" builder [] =
    (Normal colons_x, [[PseudoElement]])
  ∧ cssSelectorBuilder.class "a" colons_x [[PseudoElement]] =
      (Throw msg_order, [[PseudoElement; Class]])
  ∧ ¬ ∃ fa ha, cssSelectorBuilder.class "a" colons_x [[PseudoElement]] =
               (Normal fa, ha).
Proof.
  split; [reflexivity|]. split; [reflexivity|].
  intros (fa & ha & H). vm_compute in H. discriminate H.
Qed.

(** A kind that may repeat is not checked against the kinds pushed since
    its first occurrence: [builder.class('a').attr('x').class('b')]
    returns, although [Attribute] has a greater index than [Class]. *)
Lemma repeated_kind_is_accepted :
  chain [(Class, "a"); (Attribute, "x")] builder [] =
    (Normal {| arr := Some 0; str := Some ".a[x]" |}, [[Class; Attribute]])
  ∧ cssSelectorBuilder.class "b" {| arr := Some 0; str := Some ".a[x]" |}
      [[Class; Attribute]] =
    (Normal {| arr := Some 0; str := Some ".a[x].b" |},
     [[Class; Attribute; Class]])
  ∧ order Class < order Attribute.
Proof. repeat split; try reflexivity. cbn. lia. Qed.

(** C5 at [builder.class('a')] followed by [.element('div')]: the call
    throws the order error, and the kinds of the receiver are afterwards
    [[Class; Element]] instead of [[Class]]; from then on the receiver
    refuses a call it accepted before, [class('b')]. *)
Lemma order_error_leaves_kind_pushed :
  cssSelectorBuilder.class "a" builder [] = (Normal dot_a, [[Class]])
  ∧ usedKinds [[Class]] dot_a = [Class]
  ∧ cssSelectorBuilder.element "div" dot_a [[Class]] =
      (Throw msg_order, [[Class; Element]])
  ∧ usedKinds [[Class; Element]] dot_a = [Class; Element]
  ∧ cssSelectorBuilder.class "b" dot_a [[Class]] =
      (Normal dot_a_dot_b, [[Class; Class]])
  ∧ cssSelectorBuilder.class "b" dot_a [[Class; Element]] =
      (Throw msg_order, [[Class; Element; Class]]).
Proof. repeat split; reflexivity. Qed.

(** * The theorems at concrete inputs *)

Lemma append_extends_shared_array_witness :
  valid [[Class]] dot_a
  ∧ call Class "b" dot_a [[Class]] = (Normal dot_a_dot_b, [[Class; Class]])
  ∧ text dot_a_dot_b = text dot_a +:+ piece Class "b"
  ∧ usedKinds [[Class; Class]] dot_a_dot_b = usedKinds [[Class]] dot_a ++ [Class]
  ∧ usedKinds [[Class; Class]] dot_a = usedKinds [[Class]] dot_a ++ [Class].
Proof.
  assert (Hv : valid [[Class]] dot_a) by (intros a [= <-]; simpl; lia).
  assert (Hc : call Class "b" dot_a [[Class]] =
               (Normal dot_a_dot_b, [[Class; Class]])) by reflexivity.
  destruct (append_extends_shared_array _ _ _ _ _ _ Hv Hc)
    as (Ht & Hk & _ & Hs).
  destruct (Hs 0 eq_refl) as [_ Hf]. done.
Defined.

Lemma append_preserves_invariants_witness :
  InvariantA (usedKinds [[Element]] div_elt)
  ∧ InvariantB (usedKinds [[Element]] div_elt)
  ∧ call Id "main" div_elt [[Element]] = (Normal div_main, [[Element; Id]])
  ∧ InvariantA (usedKinds [[Element; Id]] div_main)
  ∧ InvariantB (usedKinds [[Element; Id]] div_main).
Proof.
  assert (HA : InvariantA (usedKinds [[Element]] div_elt)) by (vm_compute; lia).
  assert (HB : InvariantB (usedKinds [[Element]] div_elt))
    by (unfold InvariantB; cbn; repeat constructor).
  assert (Hc : call Id "main" div_elt [[Element]] =
               (Normal div_main, [[Element; Id]])) by reflexivity.
  split; [exact HA|]. split; [exact HB|]. split; [exact Hc|].
  exact (append_preserves_invariants Id "main" div_elt div_main
           [[Element]] [[Element; Id]] HA HB Hc).
Defined.

Lemma out_of_order_error_witness :
  InvariantA (usedKinds [[Class]] dot_a)
  ∧ InvariantB (usedKinds [[Class]] dot_a)
  ∧ (Element ∉ usedKinds [[Class]] dot_a)
  ∧ (fst (call Element "div" dot_a [[Class]]) = Throw msg_order).
Proof.
  assert (HA : InvariantA (usedKinds [[Class]] dot_a)) by (vm_compute; lia).
  assert (HB : InvariantB (usedKinds [[Class]] dot_a))
    by (unfold InvariantB; cbn; repeat constructor).
  assert (Hn : Element ∉ usedKinds [[Class]] dot_a)
    by (cbn; intros [=]%list_elem_of_singleton).
  split; [exact HA|]. split; [exact HB|]. split; [exact Hn|].
  destruct (out_of_order_error Element "div" dot_a [[Class]] HA HB)
    as (Hiff & _).
  apply (Hiff Hn). exists Class. cbn.
  split; [apply list_elem_of_singleton; reflexivity|].
  split; [discriminate|lia].
Defined.

Lemma class_branches_keep_text_witness :
  cssSelectorBuilder.class "a" div_elt [[Element]] =
    (Normal div_dot_a, [[Element; Class]])
  ∧ ∃ s fa ha fb hb,
      cssSelectorBuilder.stringify div_elt [[Element]] = (Normal s, [[Element]])
      ∧ cssSelectorBuilder.class "a" div_elt [[Element]] = (Normal fa, ha)
      ∧ cssSelectorBuilder.class "b" div_elt ha = (Normal fb, hb)
      ∧ cssSelectorBuilder.stringify div_elt hb = (Normal s, hb)
      ∧ cssSelectorBuilder.stringify fa hb = (Normal (s +:+ ".a"), hb)
      ∧ cssSelectorBuilder.stringify fb hb = (Normal (s +:+ ".b"), hb).
Proof.
  split; [reflexivity|].
  destruct (class_branches_keep_text div_elt [[Element]])
    as [[h' Hthrow] | Hboth].
  - vm_compute in Hthrow. discriminate Hthrow.
  - exact Hboth.
Defined.


Lemma duplicate_leaves_store_witness :
  Element ∈ usedKinds [[Element; Id]] div_main
  ∧ cssSelectorBuilder.element "span" div_main [[Element; Id]] =
      (Throw msg_more_than_once, [[Element; Id]]).
Proof.
  assert (He : Element ∈ usedKinds [[Element; Id]] div_main)
    by (cbn; apply elem_of_cons; left; reflexivity).
  split; [exact He|].
  destruct (duplicate_leaves_store "span" div_main [[Element; Id]])
    as (Hel & _).
  exact (Hel He).
Defined.

Lemma duplicate_singleton_error_witness :
  Id ∈ usedKinds [[Element; Id]] div_main
  ∧ fst (cssSelectorBuilder.id "data" div_main [[Element; Id]]) =
      Throw msg_more_than_once.
Proof.
  assert (Hi : Id ∈ usedKinds [[Element; Id]] div_main)
    by (cbn; apply elem_of_cons; right; apply elem_of_cons; left; reflexivity).
  split; [exact Hi|].
  destruct (duplicate_singleton_error "data" div_main [[Element; Id]])
    as (_ & Hid & _).
  apply Hid. exact Hi.
Defined.

(** * Further properties of the builder *)

(** ** Chains *)

Lemma Set_from_app (p r : list Kind) :
  Set_from (p ++ r) = Set_from p ++ dedup_after (Set_from p) r.
Proof. unfold Set_from. by rewrite foldl_app, foldl_Set_add. Qed.

Lemma in_order_app_l (q : nat) (a b : list Kind) :
  in_order q (a ++ b) = true → in_order q a = true.
Proof.
  revert q. induction a as [|x a IH]; intros q; [done|].
  cbn [app in_order]. rewrite !andb_true_iff. intros [Hx Hab].
  split; [done|by apply IH].
Qed.

(** What the order check accepts of a sequence it accepts of every
    beginning of it. *)
Lemma in_order_Set_from_prefix (p r : list Kind) :
  in_order 0 (Set_from (p ++ r)) = true → in_order 0 (Set_from p) = true.
Proof. rewrite Set_from_app. apply in_order_app_l. Qed.

Lemma occurrences_app (x : Kind) (l1 l2 : list Kind) :
  occurrences x (l1 ++ l2) = occurrences x l1 + occurrences x l2.
Proof. unfold occurrences. by rewrite filter_app, length_app. Qed.

Lemma occurrences_present (x : Kind) (l : list Kind) :
  x ∈ l → 1 ≤ occurrences x l.
Proof.
  unfold occurrences. induction l as [|y l IH]; [by intros ?%not_elem_of_nil|].
  intros [->|Hx]%elem_of_cons.
  - rewrite filter_cons_True by done. simpl. lia.
  - specialize (IH Hx). destruct (decide (y = x)) as [->|Hne].
    + rewrite filter_cons_True by done. simpl. lia.
    + by rewrite filter_cons_False.
Qed.

Lemma InvariantA_singleton (k : Kind) (l : list Kind) :
  InvariantA l → singleton k = true → occurrences k l ≤ 1.
Proof. intros (He & Hi & Hp) Hs. by destruct k. Qed.

(** The kinds of the object a chain returns: those of the object it
    started from, then the kinds called, in order. *)
Lemma chain_kinds (calls : list (Kind * string)) (this f : fragment)
    (h h' : store) :
  valid h this →
  chain calls this h = (Normal f, h') →
  usedKinds h' f = usedKinds h this ++ (fst <$> calls).
Proof.
  revert this h. induction calls as [|[k value] calls IH]; intros this h Hv.
  - simpl. intros [= -> ->]. by rewrite app_nil_r.
  - cbn [chain]. unfold bind.
    destruct (call k value this h) as [[next|e] h1] eqn:Hc; [|done].
    apply call_Normal in Hc as (-> & -> & _).
    intros Hrest. rewrite (IH _ _ (valid_pushed _ _ _ _ Hv) Hrest).
    rewrite usedKinds_appended by done.
    by rewrite fmap_cons, <- app_assoc.
Qed.

(** A chain is accepted when the kinds it ends with satisfy both
    invariants. *)
Lemma chain_accepts (calls : list (Kind * string)) (this : fragment)
    (h : store) :
  valid h this →
  InvariantA (usedKinds h this ++ (fst <$> calls)) →
  InvariantB (usedKinds h this ++ (fst <$> calls)) →
  ∃ f h', chain calls this h = (Normal f, h').
Proof.
  revert this h. induction calls as [|[k value] calls IH]; intros this h Hv.
  - intros _ _. by exists this, h.
  - rewrite fmap_cons. cbn [fst]. intros HA HB.
    assert (call k value this h =
            (Normal (appended k value h this), pushed k h this)) as Hc.
    { apply call_accepts; [done| |].
      - intros Hs Hk.
        pose proof (InvariantA_singleton k _ HA Hs) as Hle.
        rewrite occurrences_app in Hle.
        pose proof (occurrences_present k _ Hk).
        pose proof (occurrences_present k (k :: (fst <$> calls))
                      ltac:(left)).
        lia.
      - apply InvariantB_test in HB.
        apply (in_order_Set_from_prefix _ (fst <$> calls)).
        by rewrite <- app_assoc. }
    cbn [chain]. unfold bind. rewrite Hc.
    apply IH.
    + by apply valid_pushed.
    + rewrite usedKinds_appended by done. by rewrite <- app_assoc.
    + rewrite usedKinds_appended by done. by rewrite <- app_assoc.
Qed.

(** X1: the text of the object returned by a chain of calls started on
    the facade is the concatenation, in call order, of the formatted
    values. *)
Theorem chain_text_from_facade (calls : list (Kind * string)) (f : fragment)
    (h h' : store) :
  chain calls builder h = (Normal f, h') →
  cssSelectorBuilder.stringify f h' =
    (Normal (foldr (λ c s, piece (fst c) (snd c) +:+ s) "" calls), h').
Proof.
  intros Hc. rewrite stringify_text. by rewrite (chain_text _ _ _ _ _ Hc).
Qed.

(** X2: a chain of calls started on the facade returns exactly when the
    sequence of kinds called satisfies Invariants A and B; the kinds of
    the object returned are then that sequence. *)
Theorem chain_returns_iff (calls : list (Kind * string)) (h : store) :
  ((∃ f h', chain calls builder h = (Normal f, h')) ↔
   InvariantA (fst <$> calls) ∧ InvariantB (fst <$> calls))
  ∧ ∀ f h', chain calls builder h = (Normal f, h') →
            usedKinds h' f = fst <$> calls.
Proof.
  assert (Hk : ∀ f h', chain calls builder h = (Normal f, h') →
                       usedKinds h' f = fst <$> calls).
  { intros f h' Hc. by rewrite (chain_kinds _ _ _ _ _ (valid_builder h) Hc). }
  split; [|done]. split.
  - intros (f & h' & Hc). rewrite <- (Hk f h' Hc).
    by destruct (built_from_facade _ _ _ _ Hc) as (_ & HA & HB).
  - intros [HA HB]. by apply chain_accepts; [apply valid_builder|..].
Qed.

Lemma pushed_last (k : Kind) (h0 : store) (l : list Kind) (this : fragment) :
  arr this = Some (length h0) →
  pushed k (h0 ++ [l]) this = h0 ++ [l ++ [k]].
Proof.
  intros Ha. unfold pushed, array_of. rewrite Ha.
  rewrite <- (Nat.add_0_r (length h0)). by rewrite alter_app_r.
Qed.

Lemma chain_on_last_array (calls : list (Kind * string)) (this f : fragment)
    (h0 h' : store) (l : list Kind) :
  arr this = Some (length h0) →
  chain calls this (h0 ++ [l]) = (Normal f, h') →
  arr f = Some (length h0) ∧ h' = h0 ++ [l ++ (fst <$> calls)].
Proof.
  revert this l. induction calls as [|[k value] calls IH]; intros this l Ha.
  - simpl. intros [= -> <-]. by rewrite app_nil_r.
  - cbn [chain]. unfold bind.
    destruct (call k value this (h0 ++ [l])) as [[next|e] h1] eqn:Hc; [|done].
    apply call_Normal in Hc as (-> & -> & _).
    rewrite (pushed_last k h0 l this Ha). intros Hrest.
    apply IH in Hrest as [Hf ->].
    + split; [done|]. by rewrite fmap_cons, <- app_assoc.
    + unfold appended, array_of. by rewrite Ha.
Qed.

(** X3: a chain of at least one call started on the facade, when it
    returns, has added one array to the store, holding the kinds called
    in call order, and has left every array that existed as it was. *)
Theorem chain_allocates_one_array (c : Kind * string)
    (calls : list (Kind * string)) (f : fragment) (h h' : store) :
  chain (c :: calls) builder h = (Normal f, h') →
  arr f = Some (length h) ∧ h' = h ++ [fst <$> (c :: calls)].
Proof.
  destruct c as [k value]. cbn [chain]. unfold bind.
  destruct (call k value builder h) as [[next|e] h1] eqn:Hc; [|done].
  apply call_Normal in Hc as (-> & -> & _).
  rewrite pushed_new_array by done. intros Hrest.
  apply chain_on_last_array in Hrest as [Hf ->]; [done|].
  by unfold appended, array_of.
Qed.

(** ** How the entry points fail *)

Lemma call_order_Throw (k : Kind) (value : string) (f : fragment)
    (h h' : store) :
  call k value f h = (Throw msg_order, h') →
  ∃ a, arr f = Some a ∧ a < length h ∧ h' = pushed k h f ∧
       usedKinds h' f = usedKinds h f ++ [k] ∧
       in_order 0 (Set_from (usedKinds h' f)) = false.
Proof.
  rewrite call_unfold.
  destruct (singleton k && bool_decide (k ∈ usedKinds h f)).
  { intros E. destruct messages_differ. congruence. }
  destruct (in_order 0 _) eqn:Ho; [done|]. intros [= <-].
  destruct (arr f) as [a|] eqn:Ha.
  - destruct (decide (a < length h)) as [Hlt|Hge].
    + exists a. split; [done|]. split; [done|]. split; [done|].
      rewrite usedKinds_appended in Ho by (intros a' Ha'; congruence).
      rewrite (usedKinds_receiver_shared k h f a) by done. done.
    + destruct (usedKinds_appended_cases k value h f) as [E | [_ E]];
        rewrite E in Ho.
      * rewrite (usedKinds_dangling h f a) in Ho by (done || lia).
        by destruct k.
      * done.
  - rewrite usedKinds_appended in Ho by (intros a' Ha'; congruence).
    rewrite usedKinds_no_array in Ho by done. by destruct k.
Qed.

(** X4: an entry point that throws does so in one of two ways.  Either
    the message is the one about occurring more than once: the kind is
    then element, id or pseudo-element, it was among the receiver's
    kinds, and the store is as it was.  Or the message is the one about
    the order: the receiver then has an array, and its kinds afterwards
    are its former kinds followed by the kind that was refused. *)
Theorem entry_point_errors (k : Kind) (value e : string) (f : fragment)
    (h h' : store) :
  call k value f h = (Throw e, h') →
  (e = msg_more_than_once ∧ singleton k = true ∧ k ∈ usedKinds h f ∧ h' = h)
  ∨ (e = msg_order ∧ is_Some (arr f) ∧
     usedKinds h' f = usedKinds h f ++ [k]).
Proof.
  intros Hc. destruct (call_Throw _ _ _ _ _ _ Hc) as [(-> & -> & Hs & Hk) | (-> & _)].
  - by left.
  - right. apply call_order_Throw in Hc as (a & Ha & _ & _ & Hk & _).
    split; [done|]. split; [by exists a|done].
Qed.

(** X5: once an entry point has thrown the order error on a receiver,
    every later call of any entry point on that receiver throws as
    well. *)
Theorem order_error_is_permanent (k k' : Kind) (value value' : string)
    (f : fragment) (h h' : store) :
  call k value f h = (Throw msg_order, h') →
  ∃ e h'', call k' value' f h' = (Throw e, h'').
Proof.
  intros (a & Ha & Hlt & -> & Hk & Ho)%call_order_Throw.
  rewrite call_unfold.
  destruct (singleton k' && bool_decide (k' ∈ usedKinds (pushed k h f) f));
    [by eexists _, _|].
  assert (valid (pushed k h f) f) as Hv.
  { intros a' Ha'. rewrite (length_pushed k h f a Ha). congruence. }
  rewrite usedKinds_appended by done.
  destruct (in_order 0 (Set_from (usedKinds (pushed k h f) f ++ [k']))) eqn:Ho';
    [|by eexists _, _].
  apply in_order_Set_from_prefix in Ho'. congruence.
Qed.

(** X6: on a receiver without an array, such as the facade or the result
    of [combine], every entry point returns, whatever the store holds:
    the new object gets a new array holding its kind only, and the
    arrays that existed are as they were. *)
Theorem call_without_array_returns (k : Kind) (value : string) (f : fragment)
    (h : store) :
  arr f = None →
  call k value f h =
    (Normal {| arr := Some (length h);
               str := Some (text f +:+ piece k value) |},
     h ++ [[k]]).
Proof.
  intros Ha.
  rewrite call_accepts.
  - unfold appended, array_of. by rewrite Ha, pushed_new_array.
  - intros a. by rewrite Ha.
  - intros _. rewrite usedKinds_no_array by done. apply not_elem_of_nil.
  - rewrite usedKinds_no_array by done. by destruct k.
Qed.

Lemma call_store (k : Kind) (value : string) (f : fragment) (h : store) :
  snd (call k value f h) = h ∨ snd (call k value f h) = pushed k h f.
Proof.
  rewrite call_unfold.
  destruct (singleton k && _); [by left|].
  destruct (in_order 0 _); by right.
Qed.

(** X7: a call, whether it returns or throws, changes no array but the one
    the receiver holds: an object with a valid reference to another array
    keeps its kinds. *)
Theorem call_frame (k : Kind) (value : string) (f g : fragment) (h : store) :
  valid h g →
  (∀ a, arr f = Some a → arr g ≠ Some a) →
  usedKinds (snd (call k value f h)) g = usedKinds h g.
Proof.
  intros Hv Hne. destruct (call_store k value f h) as [-> | ->]; [done|].
  destruct (arr f) as [a|] eqn:Ha.
  - unfold usedKinds, pushed, array_of. rewrite Ha.
    destruct (arr g) as [b|] eqn:Hb; [|done].
    rewrite list_lookup_alter_ne; [done|]. intros ->. by apply (Hne b).
  - by apply usedKinds_frame_new_array.
Qed.

(** ** The checks, read on the kinds *)

(** X8: [inOrderCheck] never changes the store; it returns when the
    kinds of the object satisfy Invariant B and throws the order error
    when they do not. *)
Theorem inOrderCheck_decides_InvariantB (obj : fragment) (h : store) :
  (InvariantB (usedKinds h obj) →
     cssSelectorBuilder.inOrderCheck obj h = (Normal tt, h))
  ∧ (¬ InvariantB (usedKinds h obj) →
     cssSelectorBuilder.inOrderCheck obj h = (Throw msg_order, h)).
Proof.
  assert (cssSelectorBuilder.inOrderCheck obj h =
          (if in_order 0 (Set_from (usedKinds h obj))
           then Normal tt else Throw msg_order, h)) as ->.
  { unfold cssSelectorBuilder.inOrderCheck, usedKinds.
    destruct (arr obj) as [a|]; [|done].
    unfold bind, items_of. apply forEach_order_test. }
  rewrite InvariantB_test.
  destruct (in_order 0 (Set_from (usedKinds h obj))); split; done.
Qed.

(** X9: [element] returns exactly on a receiver that has no kinds yet: in
    a chain it can only be the first call. *)
Theorem element_only_first (value : string) (f : fragment) (h : store) :
  (∃ f' h', cssSelectorBuilder.element value f h = (Normal f', h'))
  ↔ usedKinds h f = [].
Proof.
  change (cssSelectorBuilder.element value f h) with (call Element value f h).
  split.
  - intros (f' & h' & (-> & -> & Hk & Ho)%call_Normal).
    destruct (usedKinds_appended_cases Element value h f) as [E | [E _]];
      [|done].
    rewrite E, Set_from_snoc in Ho. unfold Set_add in Ho.
    rewrite bool_decide_eq_false_2 in Ho
      by (rewrite elem_of_Set_from; by apply Hk).
    rewrite in_order_snoc, andb_true_iff, Nat.leb_le in Ho.
    destruct Ho as [Ho Hlast].
    destruct (in_order_bounds _ _ Ho) as [_ Hall].
    destruct (usedKinds h f) as [|x l]; [done|]. exfalso.
    assert (x ∈ Set_from (x :: l)) as Hx by (apply elem_of_Set_from; left).
    specialize (Hall x Hx). cbn [order] in Hlast.
    assert (x = Element) as -> by (destruct x; cbn [order] in Hall; (done || lia)).
    apply Hk; [done|left].
  - intros E. rewrite call_unfold, E. cbn [singleton andb].
    rewrite not_elem_of_nil_bool.
    destruct (usedKinds_appended_cases Element value h f) as [-> | [_ ->]].
    + rewrite E. by eexists _, _.
    + by eexists _, _.
Qed.

(** X10: [class], [attr] and [pseudoClass] return on any receiver whose
    kinds satisfy Invariant B and already contain their kind, whatever
    kinds have been added since: the order check looks at the first
    occurrence of a kind only. *)
Theorem repeated_kind_returns (k : Kind) (value : string) (f : fragment)
    (h : store) :
  singleton k = false →
  InvariantB (usedKinds h f) →
  k ∈ usedKinds h f →
  call k value f h = (Normal (appended k value h f), pushed k h f)
  ∧ text (appended k value h f) = text f +:+ piece k value.
Proof.
  intros Hs HB Hk. split; [|done].
  apply InvariantB_test in HB.
  rewrite call_unfold, Hs. cbn [andb].
  destruct (usedKinds_appended_cases k value h f) as [-> | [E _]].
  - by rewrite Set_from_snoc_dup, HB.
  - rewrite E in Hk. by apply not_elem_of_nil in Hk.
Qed.

(** ** [combine] *)

Lemma text_Some (a : option loc) (s : string) :
  text {| arr := a; str := Some s |} = s.
Proof. reflexivity. Qed.

(** X11: nesting [combine] to the left or to the right gives the same
    object: [combine(combine(a, c1, b), c2, c)] and
    [combine(a, c1, combine(b, c2, c))] both return, with the same text
    and without an array. *)
Theorem combine_nesting (a b c : fragment) (c1 c2 : string) (h : store) :
  ∃ f,
    (let* ab := cssSelectorBuilder.combine a c1 b in
     cssSelectorBuilder.combine ab c2 c) h = (Normal f, h)
    ∧ (let* bc := cssSelectorBuilder.combine b c2 c in
       cssSelectorBuilder.combine a c1 bc) h = (Normal f, h)
    ∧ text f =
        text a +:+ " " +:+ c1 +:+ " " +:+ text b +:+ " " +:+ c2 +:+ " " +:+
        text c
    ∧ arr f = None.
Proof.
  exists {| arr := None;
            str := Some (text a +:+ " " +:+ c1 +:+ " " +:+ text b +:+ " " +:+
                         c2 +:+ " " +:+ text c) |}.
  unfold cssSelectorBuilder.combine, cssSelectorBuilder.CombineSelector,
    bind, ret.
  repeat (rewrite ?stringify_text, ?text_Some; cbn [arr]).
  by rewrite !string_app_assoc.
Qed.

(** ** These properties at concrete inputs *)

Lemma chain_text_from_facade_witness :
  chain [(Element, "a"); (Attribute, "href"); (PseudoClass, "focus")]
    builder [] =
    (Normal {| arr := Some 0; str := Some "a[href]:focus" |},
     [[Element; Attribute; PseudoClass]])
  ∧ cssSelectorBuilder.stringify {| arr := Some 0; str := Some "a[href]:focus" |}
      [[Element; Attribute; PseudoClass]] =
    (Normal "a[href]:focus", [[Element; Attribute; PseudoClass]]).
Proof.
  split; [reflexivity|].
  apply (chain_text_from_facade
           [(Element, "a"); (Attribute, "href"); (PseudoClass, "focus")]
           _ [] _).
  reflexivity.
Defined.

Lemma chain_returns_iff_witness :
  InvariantA [Element; Id; Class]
  ∧ InvariantB [Element; Id; Class]
  ∧ ∃ f h', chain [(Element, "div"); (Id, "main"); (Class, "c")] builder [] =
            (Normal f, h').
Proof.
  assert (HA : InvariantA [Element; Id; Class]) by (vm_compute; lia).
  assert (HB : InvariantB [Element; Id; Class])
    by (unfold InvariantB; cbn; repeat constructor).
  split; [exact HA|]. split; [exact HB|].
  destruct (chain_returns_iff
              [(Element, "div"); (Id, "main"); (Class, "c")] []) as [Hiff _].
  apply Hiff. split; [exact HA|exact HB].
Defined.

Lemma chain_allocates_one_array_witness :
  chain [(Id, "main"); (Class, "c")] builder [[Class]] =
    (Normal {| arr := Some 1; str := Some "#main.c" |}, [[Class]; [Id; Class]])
  ∧ arr {| arr := Some 1; str := Some "#main.c" |} = Some (length [[Class]])
  ∧ [[Class]; [Id; Class]] = [[Class]] ++ [fst <$> [(Id, "main"); (Class, "c")]].
Proof.
  split; [reflexivity|].
  apply (chain_allocates_one_array (Id, "main") [(Class, "c")]).
  reflexivity.
Defined.

Lemma entry_point_errors_witness :
  call Element "div" dot_a [[Class]] = (Throw msg_order, [[Class; Element]])
  ∧ ((msg_order = msg_more_than_once ∧ singleton Element = true ∧
      Element ∈ usedKinds [[Class]] dot_a ∧ [[Class; Element]] = [[Class]])
     ∨ (msg_order = msg_order ∧ is_Some (arr dot_a) ∧
        usedKinds [[Class; Element]] dot_a =
          usedKinds [[Class]] dot_a ++ [Element])).
Proof.
  split; [reflexivity|].
  apply (entry_point_errors Element "div" msg_order dot_a [[Class]]).
  reflexivity.
Defined.

Lemma order_error_is_permanent_witness :
  call Element "div" dot_a [[Class]] = (Throw msg_order, [[Class; Element]])
  ∧ ∃ e h'', call Class "b" dot_a [[Class; Element]] = (Throw e, h'').
Proof.
  split; [reflexivity|].
  apply (order_error_is_permanent Element Class "div" "b" dot_a [[Class]]).
  reflexivity.
Defined.

Lemma call_without_array_returns_witness :
  cssSelectorBuilder.combine div_main ">" dot_a [[Element; Id]; [Class]] =
    (Normal {| arr := None; str := Some "div#main > .a" |},
     [[Element; Id]; [Class]])
  ∧ call Element "p" {| arr := None; str := Some "div#main > .a" |}
      [[Element; Id]; [Class]] =
    (Normal {| arr := Some 2; str := Some "div#main > .ap" |},
     [[Element; Id]; [Class]; [Element]]).
Proof.
  split; [reflexivity|].
  apply (call_without_array_returns Element "p"
           {| arr := None; str := Some "div#main > .a" |}
           [[Element; Id]; [Class]]).
  reflexivity.
Defined.

Lemma call_frame_witness :
  valid [[Element; Id]; [Class]] div_main
  ∧ usedKinds
      (snd (call Element "div" {| arr := Some 1; str := Some ".a" |}
              [[Element; Id]; [Class]])) div_main =
    usedKinds [[Element; Id]; [Class]] div_main.
Proof.
  assert (Hv : valid [[Element; Id]; [Class]] div_main)
    by (intros a [= <-]; simpl; lia).
  split; [exact Hv|].
  apply (call_frame Element "div" {| arr := Some 1; str := Some ".a" |}
           div_main [[Element; Id]; [Class]] Hv).
  intros a [= <-]. discriminate.
Defined.

Lemma inOrderCheck_decides_InvariantB_witness :
  ¬ InvariantB (usedKinds [[Class; Element]] dot_a)
  ∧ cssSelectorBuilder.inOrderCheck dot_a [[Class; Element]] =
      (Throw msg_order, [[Class; Element]]).
Proof.
  assert (Hn : ¬ InvariantB (usedKinds [[Class; Element]] dot_a)).
  { unfold InvariantB. intros Hs.
    change (Sorted le [2; 0]) in Hs.
    apply Sorted_inv in Hs as [_ Hh]. apply HdRel_inv in Hh. lia. }
  split; [exact Hn|].
  destruct (inOrderCheck_decides_InvariantB dot_a [[Class; Element]])
    as [_ Hthrow].
  exact (Hthrow Hn).
Defined.

Lemma element_only_first_witness :
  usedKinds [[Class]] {| arr := None; str := Some "a + b" |} = []
  ∧ ∃ f' h',
      cssSelectorBuilder.element "p" {| arr := None; str := Some "a + b" |}
        [[Class]] = (Normal f', h').
Proof.
  split; [reflexivity|].
  apply (element_only_first "p" {| arr := None; str := Some "a + b" |}
           [[Class]]).
  reflexivity.
Defined.

Lemma repeated_kind_returns_witness :
  singleton Class = false
  ∧ InvariantB (usedKinds [[Class; Attribute]]
                  {| arr := Some 0; str := Some ".a[x]" |})
  ∧ Class ∈ usedKinds [[Class; Attribute]]
              {| arr := Some 0; str := Some ".a[x]" |}
  ∧ call Class "b" {| arr := Some 0; str := Some ".a[x]" |}
      [[Class; Attribute]] =
    (Normal {| arr := Some 0; str := Some ".a[x].b" |},
     [[Class; Attribute; Class]]).
Proof.
  assert (HB : InvariantB (usedKinds [[Class; Attribute]]
                             {| arr := Some 0; str := Some ".a[x]" |}))
    by (unfold InvariantB; cbn; repeat constructor).
  assert (Hk : Class ∈ usedKinds [[Class; Attribute]]
                         {| arr := Some 0; str := Some ".a[x]" |})
    by (cbn; left).
  split; [reflexivity|]. split; [exact HB|]. split; [exact Hk|].
  destruct (repeated_kind_returns Class "b"
              {| arr := Some 0; str := Some ".a[x]" |} [[Class; Attribute]]
              eq_refl HB Hk) as [Hc _].
  exact Hc.
Defined.

(** * [isBracketsBalanced] *)

Lemma bracketPairs_Some (o c : ascii) :
  bracketPairs (Some o) = Some c →
  openBrackets_has o = true ∧ closeBrackets_has o = false ∧
  openBrackets_has c = false ∧ closeBrackets_has c = true.
Proof.
  unfold bracketPairs.
  destruct o as [[] [] [] [] [] [] [] []]; try discriminate;
    intros [= <-]; vm_compute; done.
Qed.

Lemma open_not_close (c : ascii) :
  openBrackets_has c = true → closeBrackets_has c = false.
Proof.
  unfold openBrackets_has. intros Hc%bool_decide_eq_true.
  repeat (apply elem_of_cons in Hc as [->|Hc]; [reflexivity|]).
  by apply not_elem_of_nil in Hc.
Qed.

(** A balanced beginning leaves the stack as it found it. *)
Lemma scan_brackets_Balanced (a : list ascii) :
  Balanced a → ∀ r stack, scan_brackets (a ++ r) stack = scan_brackets r stack.
Proof.
  induction 1 as [|c s Ho Hc _ IH|o c a b Hp _ IHa _ IHb]; intros r stack.
  - done.
  - cbn [app scan_brackets]. rewrite Ho, Hc. apply IH.
  - destruct (bracketPairs_Some o c Hp) as (Ho & Hoc & Hco & Hcc).
    cbn [app scan_brackets]. rewrite Ho, Hoc.
    rewrite <- app_assoc, IHa. cbn [app scan_brackets].
    rewrite Hco, Hcc. cbn [pop].
    rewrite bool_decide_eq_false_2 by (intros Hne; by apply Hne).
    apply IHb.
Qed.

Lemma Balanced_app (a b : list ascii) :
  Balanced a → Balanced b → Balanced (a ++ b).
Proof.
  induction 1 as [|c s Ho Hc _ IH|o c a1 a2 Hp Ha1 _ _ IH2]; intros Hb.
  - done.
  - cbn [app]. apply Balanced_other; auto.
  - cbn [app]. rewrite <- app_assoc. cbn [app].
    apply Balanced_pair; auto.
Qed.

Lemma Closes_app (stack a s : list ascii) :
  Balanced a → Closes stack s → Closes stack (a ++ s).
Proof.
  destruct stack as [|o stack]; cbn [Closes].
  - apply Balanced_app.
  - intros Ha (a' & b & c & -> & Hp & Ha' & Hb).
    exists (a ++ a'), b, c. rewrite app_assoc.
    split; [done|]. split; [done|]. split; [by apply Balanced_app|done].
Qed.

Lemma scan_brackets_Closes (s stack : list ascii) :
  scan_brackets s stack = true → Closes stack s.
Proof.
  revert stack. induction s as [|c s IH]; intros stack.
  - cbn [scan_brackets]. intros Hl%bool_decide_eq_true.
    destruct stack; [constructor|done].
  - cbn [scan_brackets].
    destruct (openBrackets_has c) eqn:Ho.
    + rewrite (open_not_close c Ho). intros Hs.
      destruct (IH _ Hs) as (a & b & c' & -> & Hp & Ha & Hb).
      replace (c :: a ++ c' :: b) with ((c :: a ++ [c']) ++ b)
        by (cbn [app]; by rewrite <- app_assoc).
      apply Closes_app; [|done].
      apply (Balanced_pair c c' a []); [done|done|constructor].
    + destruct (closeBrackets_has c) eqn:Hc.
      * destruct stack as [|o stack]; cbn [pop].
        { rewrite bool_decide_eq_true_2 by done. done. }
        case_bool_decide as Hp; [done|]. intros Hs.
        exists [], s, c. split; [done|]. split; [done|].
        split; [constructor|by apply IH].
      * intros Hs. apply (Closes_app stack [c] s); [|by apply IH].
        apply Balanced_other; [done|done|constructor].
Qed.

(** X12: [isBracketsBalanced] returns [true] exactly on the balanced
    strings: those built from the empty string by putting a unit that
    is no bracket in front, or by putting in front an opening bracket,
    a balanced string and the closing bracket of the same pair. *)
Theorem isBracketsBalanced_correct (str : list ascii) :
  isBracketsBalanced str = true ↔ Balanced str.
Proof.
  unfold isBracketsBalanced. split.
  - apply (scan_brackets_Closes str []).
  - intros Hb. rewrite <- (app_nil_r str).
    by rewrite scan_brackets_Balanced.
Qed.

(** X13: in front of any string, a string that [isBracketsBalanced]
    accepts changes nothing to the answer. *)
Theorem isBracketsBalanced_prefix (a b : list ascii) :
  isBracketsBalanced a = true →
  isBracketsBalanced (a ++ b) = isBracketsBalanced b.
Proof.
  intros Ha%(scan_brackets_Closes a []). cbn [Closes] in Ha.
  unfold isBracketsBalanced. by apply scan_brackets_Balanced.
Qed.

Lemma scan_brackets_filter (s stack : list ascii) :
  scan_brackets
    (filter (λ c, openBrackets_has c || closeBrackets_has c = true) s) stack =
  scan_brackets s stack.
Proof.
  revert stack. induction s as [|c s IH]; intros stack; [done|].
  destruct (openBrackets_has c || closeBrackets_has c) eqn:Hb.
  - rewrite filter_cons_True by done. cbn [scan_brackets].
    destruct (closeBrackets_has c); [|apply IH].
    destruct (pop _) as [top stack2]. by rewrite IH.
  - rewrite filter_cons_False by (rewrite Hb; done).
    apply orb_false_iff in Hb as [Ho Hc].
    cbn [scan_brackets]. rewrite Ho, Hc. apply IH.
Qed.

(** X14: units that are not brackets do not count: the answer is the one
    for the string with those units removed. *)
Theorem isBracketsBalanced_ignores_others (str : list ascii) :
  isBracketsBalanced str =
  isBracketsBalanced
    (filter (λ c, openBrackets_has c || closeBrackets_has c = true) str).
Proof. unfold isBracketsBalanced. by rewrite scan_brackets_filter. Qed.

(** * [getCommonDirectoryPath] *)

(** The loop from [j], with enough rounds left: where it stops, the two
    strings agree on everything before, and the loop condition fails. *)
Lemma while_agree_from (rounds j : nat) (cp p : list ascii) :
  j ≤ length cp → j ≤ length p → take j cp = take j p →
  length cp ≤ rounds + j →
  let n := while_agree rounds j cp p in
  n ≤ length cp ∧ n ≤ length p ∧ take n cp = take n p ∧
  ¬ (n < length p ∧ n < length cp ∧ cp !! n = p !! n).
Proof.
  revert j. induction rounds as [|rounds IH]; intros j Hcp Hp Ht Hr; cbn zeta.
  - cbn [while_agree]. repeat split; try done. lia.
  - cbn [while_agree].
    destruct (bool_decide (j < length p) && bool_decide (j < length cp)
              && bool_decide (cp !! j = p !! j)) eqn:Hc.
    + apply andb_true_iff in Hc as [[H1 H2]%andb_true_iff H3].
      apply bool_decide_eq_true in H1, H2, H3.
      destruct (lookup_lt_is_Some_2 cp j H2) as [x Hx].
      apply IH; [lia|lia| |lia].
      rewrite (take_S_r cp j x Hx), (take_S_r p j x) by congruence.
      by rewrite Ht.
    + repeat split; try done.
      intros (H1 & H2 & H3).
      by rewrite !bool_decide_eq_true_2 in Hc.
Qed.

(** With [commonPath.length] rounds the loop has stopped by itself. *)
Lemma while_agree_stops (cp p : list ascii) :
  let n := while_agree (length cp) 0 cp p in
  n ≤ length cp ∧ n ≤ length p ∧ take n cp = take n p ∧
  ¬ (n < length p ∧ n < length cp ∧ cp !! n = p !! n).
Proof. apply while_agree_from; [lia|lia|done|lia]. Qed.

Lemma prefix_take_length (d l : list ascii) :
  d `prefix_of` l → take (length d) l = d.
Proof. intros [k ->]. apply take_app_length. Qed.

(** [shorten] keeps the longest common beginning of the two strings. *)
Lemma shorten_longest (cp p : list ascii) :
  shorten cp p `prefix_of` cp ∧ shorten cp p `prefix_of` p ∧
  ∀ d, d `prefix_of` cp → d `prefix_of` p → d `prefix_of` shorten cp p.
Proof.
  unfold shorten.
  destruct (while_agree_stops cp p) as (Hn1 & Hn2 & Ht & Hstop).
  set (n := while_agree (length cp) 0 cp p) in *.
  split; [apply prefix_take|]. split; [rewrite Ht; apply prefix_take|].
  intros d Hd1 Hd2.
  assert (length d ≤ n) as Hle.
  { destruct (decide (length d ≤ n)) as [|Hgt]; [done|]. exfalso.
    apply Hstop.
    pose proof (prefix_length _ _ Hd1). pose proof (prefix_length _ _ Hd2).
    split; [lia|]. split; [lia|].
    destruct (lookup_lt_is_Some_2 d n ltac:(lia)) as [x Hx].
    by rewrite (prefix_lookup_Some _ _ _ _ Hx Hd1),
               (prefix_lookup_Some _ _ _ _ Hx Hd2). }
  rewrite <- (prefix_take_length d cp Hd1).
  replace (length d) with (min (length d) n) by lia.
  rewrite <- take_take. apply prefix_take.
Qed.

(** The [for] loop keeps the longest common beginning of all the
    strings. *)
Lemma foldl_shorten_longest (others : list (list ascii)) (first : list ascii) :
  (∀ p, p ∈ first :: others → foldl shorten first others `prefix_of` p)
  ∧ ∀ d, (∀ p, p ∈ first :: others → d `prefix_of` p) →
         d `prefix_of` foldl shorten first others.
Proof.
  revert first. induction others as [|p others IH]; intros first.
  - cbn [foldl]. split.
    + by intros p ->%list_elem_of_singleton.
    + intros d Hd. apply Hd. left.
  - cbn [foldl].
    destruct (shorten_longest first p) as (H1 & H2 & H3).
    destruct (IH (shorten first p)) as [IH1 IH2]. split.
    + intros q [->|[->|Hq]%elem_of_cons]%elem_of_cons.
      * etrans; [apply IH1; left|done].
      * etrans; [apply IH1; left|done].
      * apply IH1. by right.
    + intros d Hd. apply IH2.
      intros q [->|Hq]%elem_of_cons.
      * apply H3; apply Hd; [left|right; left].
      * apply Hd. right. by right.
Qed.

Lemma lastIndexOf_spec (s : list ascii) (c : ascii) :
  (-1 ≤ lastIndexOf s c < Z.of_nat (length s))%Z
  ∧ ((0 ≤ lastIndexOf s c)%Z → s !! Z.to_nat (lastIndexOf s c) = Some c)
  ∧ ∀ i : nat, s !! i = Some c → (Z.of_nat i ≤ lastIndexOf s c)%Z.
Proof.
  induction s as [|x s (Hr & Hat & Hmax)]; cbn [lastIndexOf length].
  - split; [lia|]. split; [lia|]. intros i. by rewrite lookup_nil.
  - destruct (Z.leb_spec 0 (lastIndexOf s c)) as [Hk|Hk].
    + split; [lia|]. split.
      * intros _. rewrite Z2Nat.inj_add, Nat.add_1_r by lia.
        cbn [lookup list_lookup]. by apply Hat.
      * intros [|i]; [lia|]. cbn. intros Hi%Hmax. lia.
    + case_bool_decide as Hx.
      * subst x. split; [lia|]. split; [done|].
        intros [|i]; [done|]. cbn. intros Hi%Hmax. lia.
      * split; [lia|]. split; [lia|].
        intros [|i]; cbn; [congruence|]. intros Hi%Hmax. lia.
Qed.

(** The last line: the beginning of [cp] up to its last [/]. *)
Lemma directory_part (cp : list ascii) :
  let r := take (Z.to_nat (lastIndexOf cp "/" + 1)) cp in
  r `prefix_of` cp
  ∧ (r = [] ∨ last r = Some "/"%char)
  ∧ ∀ d, d `prefix_of` cp → last d = Some "/"%char → d `prefix_of` r.
Proof.
  cbn zeta. destruct (lastIndexOf_spec cp "/") as (Hr & Hat & Hmax).
  set (k := lastIndexOf cp "/") in *.
  split; [apply prefix_take|]. split.
  - destruct (decide (0 ≤ k)%Z) as [Hk|Hk].
    + right. rewrite last_lookup, length_take_le by lia.
      replace (Z.to_nat (k + 1)) with (S (Z.to_nat k)) by lia. cbn [pred].
      rewrite lookup_take_lt by lia. by apply Hat.
    + left. by replace (Z.to_nat (k + 1)) with 0 by lia.
  - intros d Hd Hl.
    assert (length d ≤ Z.to_nat (k + 1)) as Hle.
    { rewrite last_lookup in Hl.
      apply (prefix_lookup_Some _ cp) in Hl; [|done].
      apply Hmax in Hl.
      destruct d; cbn [length Init.Nat.pred] in *; lia. }
    rewrite <- (prefix_take_length d cp Hd).
    replace (length d) with (min (length d) (Z.to_nat (k + 1))) by lia.
    rewrite <- take_take. apply prefix_take.
Qed.

(** X15: on an array that is not empty [getCommonDirectoryPath] returns a
    string that every path of the array begins with, and that is empty
    or ends with [/]; on the empty array it throws. *)
Theorem getCommonDirectoryPath_common (first : list ascii)
    (others : list (list ascii)) :
  getCommonDirectoryPath [] = None
  ∧ ∃ r, getCommonDirectoryPath (first :: others) = Some r
         ∧ (∀ p, p ∈ first :: others → r `prefix_of` p)
         ∧ (r = [] ∨ last r = Some "/"%char).
Proof.
  split; [done|]. eexists. split; [reflexivity|].
  destruct (directory_part (foldl shorten first others)) as (Hp & Hl & _).
  destruct (foldl_shorten_longest others first) as [Hall _].
  split; [|done]. intros p Hin. etrans; [exact Hp|by apply Hall].
Qed.

(** X16: the string returned is the longest of its kind: every string
    that ends with [/] and that every path of the array begins with is a
    beginning of the string returned. *)
Theorem getCommonDirectoryPath_longest (first : list ascii)
    (others : list (list ascii)) (d : list ascii) :
  (∀ p, p ∈ first :: others → d `prefix_of` p) →
  last d = Some "/"%char →
  ∃ r, getCommonDirectoryPath (first :: others) = Some r ∧ d `prefix_of` r.
Proof.
  intros Hd Hl. eexists. split; [reflexivity|].
  destruct (directory_part (foldl shorten first others)) as (_ & _ & Hmax).
  destruct (foldl_shorten_longest others first) as [_ Hlong].
  apply Hmax; [by apply Hlong|done].
Qed.

(** ** The two string functions at concrete inputs *)

Lemma isBracketsBalanced_correct_witness :
  isBracketsBalanced (units "{[(<{[]}>)]}") = true
  ∧ Balanced (units "{[(<{[]}>)]}").
Proof.
  split; [reflexivity|].
  apply (isBracketsBalanced_correct (units "{[(<{[]}>)]}")). reflexivity.
Defined.

Lemma isBracketsBalanced_prefix_witness :
  isBracketsBalanced (units "[[][]]") = true
  ∧ isBracketsBalanced (units "[[][]]" ++ units "[") =
    isBracketsBalanced (units "[").
Proof.
  split; [reflexivity|].
  apply (isBracketsBalanced_prefix (units "[[][]]") (units "[")). reflexivity.
Defined.

Lemma getCommonDirectoryPath_longest_witness :
  (∀ p, p ∈ [units "/web/images/image1.png"; units "/web/images/image2.png"] →
        units "/web/" `prefix_of` p)
  ∧ last (units "/web/") = Some "/"%char
  ∧ ∃ r, getCommonDirectoryPath
           [units "/web/images/image1.png"; units "/web/images/image2.png"] =
         Some r
         ∧ units "/web/" `prefix_of` r.
Proof.
  assert (Hd : ∀ p, p ∈ [units "/web/images/image1.png";
                         units "/web/images/image2.png"] →
                    units "/web/" `prefix_of` p).
  { intros p [->|[->|Hp]%elem_of_cons]%elem_of_cons.
    - exists (units "images/image1.png"). reflexivity.
    - exists (units "images/image2.png"). reflexivity.
    - by apply not_elem_of_nil in Hp. }
  split; [exact Hd|]. split; [reflexivity|].
  apply (getCommonDirectoryPath_longest (units "/web/images/image1.png")
           [units "/web/images/image2.png"] (units "/web/") Hd).
  reflexivity.
Defined.

(** * [findFirstSingleChar] *)

Lemma Map_get_set (k key : ascii) (value : nat) (m : list (ascii * nat)) :
  Map_get k (Map_set key value m) =
    if bool_decide (k = key) then Some value else Map_get k m.
Proof.
  unfold Map_get. induction m as [|[k' v'] m IH]; cbn [Map_set List.find fst].
  - destruct (decide (k = key)) as [->|Hk].
    + by rewrite !bool_decide_eq_true_2.
    + by rewrite (bool_decide_eq_false_2 (key = k)),
                 (bool_decide_eq_false_2 (k = key)).
  - destruct (decide (k' = key)) as [->|Hne].
    + rewrite (bool_decide_eq_true_2 (key = key)) by done.
      cbn [List.find fst].
      destruct (decide (k = key)) as [->|Hk].
      * by rewrite !bool_decide_eq_true_2.
      * by rewrite (bool_decide_eq_false_2 (key = k)),
                   (bool_decide_eq_false_2 (k = key)).
    + rewrite (bool_decide_eq_false_2 (k' = key)) by done.
      cbn [List.find fst].
      destruct (decide (k' = k)) as [->|Hk].
      * rewrite (bool_decide_eq_true_2 (k = k)) by done.
        by rewrite (bool_decide_eq_false_2 (k = key)).
      * rewrite (bool_decide_eq_false_2 (k' = k)) by done. apply IH.
Qed.

Lemma Map_set_keys (key : ascii) (value : nat) (m : list (ascii * nat)) :
  fst <$> Map_set key value m =
    if bool_decide (key ∈ fst <$> m) then fst <$> m
    else (fst <$> m) ++ [key].
Proof.
  induction m as [|[k v] m IH]; cbn [Map_set fmap list_fmap fst app].
  - by rewrite bool_decide_eq_false_2 by apply not_elem_of_nil.
  - destruct (decide (k = key)) as [->|Hne].
    + rewrite (bool_decide_eq_true_2 (key = key)) by done.
      by rewrite bool_decide_eq_true_2 by left.
    + rewrite (bool_decide_eq_false_2 (k = key)) by done.
      cbn [fmap list_fmap fst]. rewrite IH.
      rewrite (bool_decide_ext (key ∈ k :: (fst <$> m)) (key ∈ fst <$> m)).
      * by case_bool_decide.
      * rewrite elem_of_cons. intuition congruence.
Qed.

Lemma Map_set_NoDup (key : ascii) (value : nat) (m : list (ascii * nat)) :
  NoDup (fst <$> m) → NoDup (fst <$> Map_set key value m).
Proof.
  intros Hm. rewrite Map_set_keys. case_bool_decide as Hk; [done|].
  apply NoDup_app. split; [done|]. split.
  - intros x Hx ->%list_elem_of_singleton. done.
  - apply NoDup_singleton.
Qed.

Lemma Map_get_entry (k : ascii) (v : nat) (m : list (ascii * nat)) :
  NoDup (fst <$> m) → (k, v) ∈ m → Map_get k m = Some v.
Proof.
  unfold Map_get. induction m as [|[k' v'] m IH]; [by intros _ ?%not_elem_of_nil|].
  cbn [fmap list_fmap fst]. intros [Hk' Hm]%NoDup_cons [E|Hin]%elem_of_cons.
  - injection E as <- <-. cbn [List.find fst].
    by rewrite bool_decide_eq_true_2.
  - cbn [List.find fst]. rewrite bool_decide_eq_false_2; [by apply IH|].
    intros ->. apply Hk'. apply list_elem_of_fmap. by exists (k, v).
Qed.

(** After the first loop the map holds, for every unit, the number of its
    occurrences among the units counted. *)
Lemma foldl_count_unit (s : list ascii) (m : list (ascii * nat)) (k : ascii) :
  default 0 (Map_get k (foldl count_unit m s)) =
    default 0 (Map_get k m) + unit_count k s.
Proof.
  revert m. induction s as [|c s IH]; intros m; cbn [foldl].
  - unfold unit_count. simpl. lia.
  - rewrite IH. unfold count_unit at 1. rewrite Map_get_set.
    unfold unit_count. case_bool_decide as E.
    + subst c. rewrite filter_cons_True by done. simpl. lia.
    + rewrite filter_cons_False by congruence. done.
Qed.

Lemma foldl_count_unit_NoDup (s : list ascii) (m : list (ascii * nat)) :
  NoDup (fst <$> m) → NoDup (fst <$> foldl count_unit m s).
Proof.
  revert m. induction s as [|c s IH]; intros m Hm; [done|].
  cbn [foldl]. apply IH. by apply Map_set_NoDup.
Qed.

Lemma find_Some_elem {A} (f : A → bool) (l : list A) (x : A) :
  List.find f l = Some x → x ∈ l ∧ f x = true.
Proof.
  induction l as [|y l IH]; [done|]. cbn [List.find].
  destruct (f y) eqn:Hy.
  - intros [= ->]. split; [left|done].
  - intros [Hin Hx]%IH. split; [by right|done].
Qed.

(** X17: a unit that [findFirstSingleChar] returns occurs exactly once
    among the units of the string before its last one (the last unit is
    not counted). *)
Theorem findFirstSingleChar_single (str : list ascii) (c : ascii) :
  findFirstSingleChar str = Some c →
  unit_count c (take (length str - 1) str) = 1.
Proof.
  unfold findFirstSingleChar. cbn zeta.
  set (s := take (length str - 1) str).
  destruct (List.find _ _) as [[k v]|] eqn:Hf; [|done].
  cbn [fmap option_fmap option_map fst]. intros [= ->].
  apply find_Some_elem in Hf as [Hin Hv].
  cbn [snd] in Hv. apply bool_decide_eq_true in Hv. subst v.
  pose proof (elem_of_prefix _ _ _ Hin (prefix_take _ _)) as Hin'.
  clear Hin.
  pose proof (foldl_count_unit s [] c) as Hc.
  rewrite (Map_get_entry c 1) in Hc.
  - cbn in Hc. lia.
  - apply foldl_count_unit_NoDup. constructor.
  - done.
Qed.

(** X18: on a string of fewer than three units [findFirstSingleChar]
    returns [null]. *)
Theorem findFirstSingleChar_short (str : list ascii) :
  length str ≤ 2 → findFirstSingleChar str = None.
Proof.
  destruct str as [|a [|b [|c str]]]; cbn [length]; try done; lia.
Qed.

Lemma findFirstSingleChar_single_witness :
  findFirstSingleChar (units "abracadabra") = Some "c"%char
  ∧ unit_count "c" (take (length (units "abracadabra") - 1)
                      (units "abracadabra")) = 1.
Proof.
  split; [reflexivity|].
  apply (findFirstSingleChar_single (units "abracadabra") "c"). reflexivity.
Defined.

Lemma findFirstSingleChar_short_witness :
  length (units "ab") ≤ 2 ∧ findFirstSingleChar (units "ab") = None.
Proof.
  assert (Hl : length (units "ab") ≤ 2) by (simpl; lia).
  split; [exact Hl|].
  exact (findFirstSingleChar_short (units "ab") Hl).
Defined.
